(** * BillBuddy: contact derivation and group creation (convex/contacts.js)

    A shallow embedding of the two Convex handlers [getAllContacts] (a query)
    and [createGroup] (a mutation), with the JavaScript built-ins they use
    ([String.prototype.trim], [Set], [Array.prototype.sort],
    [Array.prototype.filter(Boolean)]), of the client hooks [useConvexQuery]
    and [useConvexMutation], and of the contacts page that renders the
    query's result, followed by their properties. *)

From Stdlib Require Import Ascii String List ZArith NArith Bool Lia.
From Stdlib Require Import Sorting.Permutation Sorting.Sorted.
Import ListNotations.

Local Open Scope string_scope.
Local Open Scope list_scope.

(* ------------------------------------------------------------------------- *)
(** ** JavaScript strings *)

(** A JavaScript string is a sequence of UTF-16 code units.  User-entered
    text (names, descriptions) is kept in that form, because [trim] is defined
    on code units. *)
Definition jsstring := list N.

(** The literal of an ASCII text. *)
Fixpoint js (s : string) : jsstring :=
  match s with
  | EmptyString => []
  | String c s' => N_of_ascii c :: js s'
  end.

(** ECMAScript WhiteSpace and LineTerminator code points, the ones
    [String.prototype.trim] strips. *)
Definition isWhiteSpace (c : N) : bool :=
  ((c =? 9) || (c =? 10) || (c =? 11) || (c =? 12) || (c =? 13) || (c =? 32)
   || (c =? 160) || (c =? 5760) || ((8192 <=? c) && (c <=? 8202))
   || (c =? 8232) || (c =? 8233) || (c =? 8239) || (c =? 8287)
   || (c =? 12288) || (c =? 65279))%N.

Fixpoint trimStart (s : jsstring) : jsstring :=
  match s with
  | [] => []
  | c :: s' => if isWhiteSpace c then trimStart s' else s
  end.

Definition trimEnd (s : jsstring) : jsstring := rev (trimStart (rev s)).

(** [s.trim()] *)
Definition trim (s : jsstring) : jsstring := trimEnd (trimStart s).

(** Truthiness of a string: only the empty string is falsy. *)
Definition truthy (s : jsstring) : bool :=
  match s with [] => false | _ :: _ => true end.

(** Comparison by code units: the case-sensitive lexicographic order. *)
Fixpoint codeUnitCompare (a b : jsstring) : Z :=
  match a, b with
  | [], [] => 0
  | [], _ :: _ => -1
  | _ :: _, [] => 1
  | x :: a', y :: b' =>
      match (x ?= y)%N with
      | Lt => -1
      | Gt => 1
      | Eq => codeUnitCompare a' b'
      end
  end%Z.

(* ------------------------------------------------------------------------- *)
(** ** Identifiers, [Set] and arrays *)

(** Convex document ids are opaque strings, compared with [===]. *)
Definition Id := string.

Definition Id_eqb (a b : Id) : bool := String.eqb a b.

(** A JavaScript [Set] of ids iterates in insertion order and ignores the
    insertion of a value it already holds: a duplicate-free list. *)
Definition IdSet := list Id.

Definition Set_has (x : Id) (s : IdSet) : bool := existsb (Id_eqb x) s.

Definition Set_add (x : Id) (s : IdSet) : IdSet :=
  if Set_has x s then s else s ++ [x].

(** [new Set(array)] *)
Definition Set_of (l : list Id) : IdSet :=
  fold_left (fun s x => Set_add x s) l [].

(** [Array.prototype.sort(comparefn)].  For a consistent comparator ECMAScript
    fixes the result: the stable ascending arrangement.  It is modelled by
    stable insertion; [comparefn] returns a number, here in [Z].  For an
    inconsistent comparator the order is left to the engine, and the order
    this model gives need not be the engine's: only that the result is a
    permutation of the array carries over. *)
Section ArraySort.
Context {A : Type} (comparefn : A -> A -> Z).

Fixpoint sortInsert (x : A) (l : list A) : list A :=
  match l with
  | [] => [x]
  | y :: l' =>
      if (comparefn x y <=? 0)%Z then x :: l else y :: sortInsert x l'
  end.

Fixpoint Array_sort (l : list A) : list A :=
  match l with
  | [] => []
  | x :: l' => sortInsert x (Array_sort l')
  end.
End ArraySort.

(** [array.filter(Boolean)] on an array of objects and [null]s: objects are
    truthy, [null] is not. *)
Fixpoint filterBoolean {A : Type} (l : list (option A)) : list A :=
  match l with
  | [] => []
  | Some a :: l' => a :: filterBoolean l'
  | None :: l' => filterBoolean l'
  end.

(* ------------------------------------------------------------------------- *)
(** ** Documents and tables *)

(** Only the fields the two handlers read or write are kept.  A user's
    [name] is a string in every document. *)
Record User := mkUser {
  u_id : Id;
  u_name : jsstring;
  u_email : jsstring;
  u_imageUrl : option jsstring
}.

Record Split := mkSplit {
  s_userId : Id
}.

Record Expense := mkExpense {
  e_id : Id;
  paidByUserId : Id;
  groupId : option Id;      (* absent for a personal, 1-to-1 expense *)
  splits : list Split
}.

Inductive Role := admin | member.

Record Member := mkMember {
  m_userId : Id;
  m_role : Role;
  m_joinedAt : Z
}.

Record Group := mkGroup {
  g_id : Id;
  g_name : jsstring;
  g_description : option jsstring;
  g_createdBy : Id;
  g_members : list Member
}.

(** The database: each table in creation order. *)
Record Db := mkDb {
  users : list User;
  expenses : list Expense;
  groups : list Group
}.

(** [ctx.db.get(id)] for an id of the users table: the document or [null]. *)
Definition db_get (db : Db) (id : Id) : option User :=
  find (fun u => Id_eqb (u_id u) id) (users db).

(* ------------------------------------------------------------------------- *)
(** ** getAllContacts *)

Record ContactUser := mkContactUser {
  cu_id : Id;
  cu_name : jsstring;
  cu_email : jsstring;
  cu_imageUrl : option jsstring
  (* type: "user" *)
}.

Record ContactGroup := mkContactGroup {
  cg_id : Id;
  cg_name : jsstring;
  cg_description : option jsstring;
  cg_memberCount : nat
  (* type: "group" *)
}.

Record Contacts := mkContacts {
  c_users : list ContactUser;
  c_groups : list ContactGroup
}.

Definition isPersonal (e : Expense) : bool :=
  match groupId e with None => true | Some _ => false end.

Definition inSplits (me : Id) (e : Expense) : bool :=
  existsb (fun s => Id_eqb (s_userId s) me) (splits e).

Definition toContactUser (u : User) : ContactUser :=
  mkContactUser (u_id u) (u_name u) (u_email u) (u_imageUrl u).

Definition toContactGroup (g : Group) : ContactGroup :=
  mkContactGroup (g_id g) (g_name g) (g_description g) (length (g_members g)).

Definition isMemberOf (me : Id) (g : Group) : bool :=
  existsb (fun m => Id_eqb (m_userId m) me) (g_members g).

Section GetAllContacts.
(** [String.prototype.localeCompare] is supplied by the runtime: it returns
    a negative number, zero or a positive number. *)
Variable localeCompare : jsstring -> jsstring -> Z.

(** The index scan [by_user_and_group] with
    [paidByUserId = me] and [groupId = undefined]. *)
Definition expensesYouPaid (db : Db) (me : Id) : list Expense :=
  filter (fun e => Id_eqb (paidByUserId e) me && isPersonal e) (expenses db).

(** The index scan [by_group] with [groupId = undefined], then the
    in-memory filter. *)
Definition expensesNotPaidByYou (db : Db) (me : Id) : list Expense :=
  filter (fun e => negb (Id_eqb (paidByUserId e) me) && inSplits me e)
         (filter isPersonal (expenses db)).

Definition personalExpenses (db : Db) (me : Id) : list Expense :=
  expensesYouPaid db me ++ expensesNotPaidByYou db me.

(** The body of [personalExpenses.forEach]. *)
Definition addExpenseContacts (me : Id) (ids : IdSet) (exp : Expense)
  : IdSet :=
  let ids1 :=
    if negb (Id_eqb (paidByUserId exp) me)
    then Set_add (paidByUserId exp) ids else ids in
  fold_left
    (fun acc s =>
       if negb (Id_eqb (s_userId s) me) then Set_add (s_userId s) acc
       else acc)
    (splits exp) ids1.

Definition contactIds (db : Db) (me : Id) : IdSet :=
  fold_left (addExpenseContacts me) (personalExpenses db me) [].

(** One element of [contactUsers]: the projected user or [null]. *)
Definition resolveContact (db : Db) (id : Id) : option ContactUser :=
  match db_get db id with
  | Some u => Some (toContactUser u)
  | None => None
  end.

Definition contactUsers (db : Db) (me : Id) : list (option ContactUser) :=
  map (resolveContact db) (contactIds db me).

Definition userGroups (db : Db) (me : Id) : list ContactGroup :=
  map toContactGroup (filter (isMemberOf me) (groups db)).

(** [(a, b) => a?.name.localeCompare(b?.name)]: with [a] null the chain
    yields [undefined], which [sort] reads as [+0]; with [b] null the
    argument [undefined] is converted to the string "undefined". *)
Definition compareUsers (a b : option ContactUser) : Z :=
  match a with
  | None => 0
  | Some a' =>
      localeCompare (cu_name a')
        (match b with Some b' => cu_name b' | None => js "undefined" end)
  end.

(** [(a, b) => a.name.localeCompare(b.name)] *)
Definition compareGroups (a b : ContactGroup) : Z :=
  localeCompare (cg_name a) (cg_name b).

(** The handler, for the current user [me] (the [_id] of the document that
    [internal.users.getCurrentUser] returned). *)
Definition getAllContacts (db : Db) (me : Id) : Contacts :=
  mkContacts
    (filterBoolean (Array_sort compareUsers (contactUsers db me)))
    (Array_sort compareGroups (userGroups db me)).
End GetAllContacts.

(* ------------------------------------------------------------------------- *)
(** ** Mutations: database state and thrown errors *)

Inductive Result (A : Type) : Type :=
| Ok (a : A)
| Throw (message : string).
Arguments Ok {A} a.
Arguments Throw {A} message.

(** A mutation step runs on the database and returns a value or throws,
    together with the database it leaves. *)
Definition M (A : Type) : Type := Db -> Result A * Db.

Definition ret {A : Type} (a : A) : M A := fun db => (Ok a, db).

Definition throw {A : Type} (message : string) : M A :=
  fun db => (Throw message, db).

Definition bind {A B : Type} (m : M A) (k : A -> M B) : M B :=
  fun db =>
    match m db with
    | (Ok a, db') => k a db'
    | (Throw message, db') => (Throw message, db')
    end.

Declare Scope mutation_scope.
Delimit Scope mutation_scope with M.
Notation "x <- m ;; k" := (bind m (fun x => k))
  (at level 61, m at next level, right associativity) : mutation_scope.
Notation "m ;;; k" := (bind m (fun _ => k))
  (at level 61, right associativity) : mutation_scope.

(** [await ctx.db.get(id)] *)
Definition ctx_db_get (id : Id) : M (option User) :=
  fun db => (Ok (db_get db id), db).

(** [await ctx.db.insert("groups", doc)]: the store allocates the [_id],
    appends the document and returns the [_id]. *)
Definition ctx_db_insert_group (newId : Id) (name : jsstring)
  (description : jsstring) (createdBy : Id) (members : list Member) : M Id :=
  fun db =>
    (Ok newId,
     mkDb (users db) (expenses db)
          (groups db ++ [mkGroup newId name (Some description) createdBy members])).

(* ------------------------------------------------------------------------- *)
(** ** createGroup *)

(** The two errors of [createGroup], by their messages. *)
Definition InvalidGroupName : string := "Group name cannot be empty".

Definition UnknownUser (id : Id) : string :=
  "User with ID " ++ id ++ " not found".

Record CreateGroupArgs := mkArgs {
  a_name : jsstring;
  a_description : option jsstring;   (* v.optional(v.string()) *)
  a_members : list Id
}.

(** [for (const id of uniqueMembers) if (!(await ctx.db.get(id))) throw ...] *)
Fixpoint validateMembers (ids : list Id) : M unit :=
  match ids with
  | [] => ret tt
  | id :: rest =>
      (u <- ctx_db_get id ;;
       match u with
       | None => throw (UnknownUser id)
       | Some _ => validateMembers rest
       end)%M
  end.

Section CreateGroup.
(** [Date_now k] is what the [k]-th call of [Date.now()] during the
    handler returns; [newId] is the id the store gives the inserted
    document. *)
Variable Date_now : nat -> Z.
Variable newId : Id.

(** [[...uniqueMembers].map((id) => ({ userId, role, joinedAt }))]: the
    callback reads the clock once for each member, in iteration order. *)
Fixpoint buildMembers (k : nat) (creator : Id) (ids : list Id)
  : list Member :=
  match ids with
  | [] => []
  | id :: rest =>
      mkMember id (if Id_eqb id creator then admin else member) (Date_now k)
      :: buildMembers (S k) creator rest
  end.

(** [new Set(args.members)] followed by [.add(currentUser._id)]. *)
Definition uniqueMembers (currentUser : User) (args : CreateGroupArgs)
  : IdSet :=
  Set_add (u_id currentUser) (Set_of (a_members args)).

(** [args.description?.trim() ?? ""] *)
Definition descriptionOf (args : CreateGroupArgs) : jsstring :=
  match a_description args with
  | Some d => trim d
  | None => []
  end.

(** The handler, for the document [currentUser] that
    [internal.users.getCurrentUser] returned. *)
Definition createGroup (currentUser : User) (args : CreateGroupArgs)
  : M Id :=
  if negb (truthy (trim (a_name args))) then throw InvalidGroupName
  else
    (validateMembers (uniqueMembers currentUser args) ;;;
     ctx_db_insert_group newId
       (trim (a_name args))
       (descriptionOf args)
       (u_id currentUser)
       (buildMembers 0 (u_id currentUser) (uniqueMembers currentUser args)))%M.
End CreateGroup.

(** The first id of a collection, in iteration order, that [ctx.db.get]
    does not find. *)
Definition firstMissing (db : Db) (ids : list Id) : option Id :=
  find (fun id => match db_get db id with None => true | Some _ => false end)
       ids.

(* ------------------------------------------------------------------------- *)
(** ** Example data *)

Module Examples.
Definition sam1 : User := mkUser "u1" (js "Sam") (js "sam@a.io") None.
Definition sam2 : User := mkUser "u2" (js "Sam") (js "sam@b.io") None.
Definition vera : User := mkUser "v" (js "Vera") (js "vera@a.io") None.
Definition bob : User := mkUser "b" (js "Bob") (js "bob@a.io") None.

Definition trip : Group :=
  mkGroup "g1" (js "Trip") (Some (js "Lisbon")) "v"
    [mkMember "v" admin 10; mkMember "b" member 10].
Definition flat : Group :=
  mkGroup "g2" (js "Flat") None "b"
    [mkMember "b" admin 20; mkMember "u1" member 20].

(** Vera paid two personal expenses, the first shared with [u2], the
    second with [u1]; both users are called Sam. *)
Definition dbTies : Db :=
  mkDb [sam1; sam2; vera]
       [mkExpense "e1" "v" None [mkSplit "v"; mkSplit "u2"];
        mkExpense "e2" "v" None [mkSplit "v"; mkSplit "u1"]]
       [].

(** Bob paid a personal expense shared with Vera and with [ghost], an id
    without a user document; a group expense involves [u1]. *)
Definition dbGhost : Db :=
  mkDb [vera; bob; sam1]
       [mkExpense "e1" "b" None [mkSplit "v"; mkSplit "ghost"];
        mkExpense "e2" "v" (Some "g1") [mkSplit "v"; mkSplit "u1"]]
       [trip; flat].

Definition frozen : nat -> Z := fun _ => 1700000000000%Z.
Definition ticking : nat -> Z := fun k => (1700000000000 + Z.of_nat k)%Z.

Definition argsTrip : CreateGroupArgs :=
  mkArgs (js "  Trip ") (Some (js " Lisbon ")) ["b"; "u1"; "b"].
Definition argsBlankGhost : CreateGroupArgs :=
  mkArgs (js "") None ["ghost"].
Definition argsGhost : CreateGroupArgs :=
  mkArgs (js "Trip") None ["b"; "ghost"].
Definition argsBlank : CreateGroupArgs :=
  mkArgs (js "   ") None ["b"].

(** The database after Vera created the group of [argsTrip]. *)
Definition dbTripCreated : Db :=
  snd (createGroup frozen "g9" vera argsTrip dbGhost).
End Examples.

(* ------------------------------------------------------------------------- *)
(** ** The orderings named by the specification *)

(** Ascending by name in code-unit order, equal names ascending by id. *)
Definition nameThenIdLe (a b : ContactUser) : Prop :=
  (codeUnitCompare (cu_name a) (cu_name b) < 0)%Z
  \/ (cu_name a = cu_name b /\ String.compare (cu_id a) (cu_id b) <> Gt).

(** The order a comparator induces: [a] may stand before [b]. *)
Definition leBy {A : Type} (cmp : A -> A -> Z) (a b : A) : Prop :=
  (cmp a b <= 0)%Z.

(** [compareUsers] on two contacts that are not [null]. *)
Definition byName (lc : jsstring -> jsstring -> Z) (a b : ContactUser) : Z :=
  lc (cu_name a) (cu_name b).

(** Ascending by name under a comparator. *)
Definition userNameLe (lc : jsstring -> jsstring -> Z) (a b : ContactUser)
  : Prop := (lc (cu_name a) (cu_name b) <= 0)%Z.

Definition groupNameLe (lc : jsstring -> jsstring -> Z) (a b : ContactGroup)
  : Prop := (lc (cg_name a) (cg_name b) <= 0)%Z.

(** A comparator is consistent when it is reflexive, total and transitive
    on its non-positive results. *)
Record Consistent (lc : jsstring -> jsstring -> Z) : Prop := {
  lc_refl : forall a, lc a a = 0%Z;
  lc_total : forall a b, (0 < lc a b)%Z -> (lc b a <= 0)%Z;
  lc_trans : forall a b c, (lc a b <= 0)%Z -> (lc b c <= 0)%Z -> (lc a c <= 0)%Z
}.

Definition jsstring_eqb (a b : jsstring) : bool :=
  if list_eq_dec N.eq_dec a b then true else false.

(** An id takes part in an expense as its payer or in one of its splits. *)
Definition involves (id : Id) (e : Expense) : Prop :=
  paidByUserId e = id \/ exists s, In s (splits e) /\ s_userId s = id.

(** The database without its group expenses. *)
Definition withoutGroupExpenses (db : Db) : Db :=
  mkDb (users db) (filter isPersonal (expenses db)) (groups db).

(** [t] is [s] with its surrounding whitespace removed. *)
Definition startsClean (t : jsstring) : Prop :=
  forall c t', t = c :: t' -> isWhiteSpace c = false.

Definition endsClean (t : jsstring) : Prop :=
  forall c t', t = t' ++ [c] -> isWhiteSpace c = false.

Definition allWhiteSpace (s : jsstring) : Prop :=
  Forall (fun c => isWhiteSpace c = true) s.

Definition Trimmed (s t : jsstring) : Prop :=
  exists l r, s = l ++ t ++ r /\ allWhiteSpace l /\ allWhiteSpace r
              /\ startsClean t /\ endsClean t.

(* ------------------------------------------------------------------------- *)
(** ** Client hooks: useConvexQuery and useConvexMutation *)

(** The three pieces of React state both hooks keep.  [undefined] and [null]
    are [None]; of an error object only [message] is ever read. *)
Record HookState (R : Type) : Type := mkHook {
  h_data : option R;
  h_isLoading : bool;
  h_error : option string
}.
Arguments mkHook {R} h_data h_isLoading h_error.
Arguments h_data {R} h.
Arguments h_isLoading {R} h.
Arguments h_error {R} h.

Definition setData {R : Type} (d : option R) (st : HookState R)
  : HookState R := mkHook d (h_isLoading st) (h_error st).

Definition setIsLoading {R : Type} (b : bool) (st : HookState R)
  : HookState R := mkHook (h_data st) b (h_error st).

Definition setError {R : Type} (e : option string) (st : HookState R)
  : HookState R := mkHook (h_data st) (h_isLoading st) e.

(** [useState(undefined)], [useState(true)], [useState(null)] *)
Definition useConvexQuery_init {R : Type} : HookState R :=
  mkHook None true None.

(** The effect of [useConvexQuery], run for one value of [result]; the
    setters do not throw, so the [catch] block is not entered. *)
Definition useConvexQuery_effect {R : Type} (result : option R)
  (st : HookState R) : HookState R :=
  match result with
  | None => setIsLoading true st
  | Some r => setIsLoading false (setError None (setData (Some r) st))
  end.

(** The state after the effect ran for the successive values of [result]. *)
Definition useConvexQuery_after {R : Type} (results : list (option R))
  : HookState R :=
  fold_left (fun st r => useConvexQuery_effect r st) results
            useConvexQuery_init.

(** [useState(undefined)], [useState(false)], [useState(null)] *)
Definition useConvexMutation_init {R : Type} : HookState R :=
  mkHook None false None.

(** One awaited call of [mutate]; [outcome] is how [mutationFn(...args)]
    settles.  The state is paired with the toasts shown so far. *)
Definition mutate {R : Type} (outcome : Result R)
  (cl : HookState R * list string) : Result R * (HookState R * list string) :=
  let (st, toasts) := cl in
  let st1 := setError None (setIsLoading true st) in
  match outcome with
  | Ok response =>
      (Ok response, (setIsLoading false (setData (Some response) st1), toasts))
  | Throw message =>
      (Throw message,
       (setIsLoading false (setError (Some message) st1), toasts ++ [message]))
  end.

(** Successive calls of [mutate], each awaited before the next. *)
Definition mutateAll {R : Type} (outcomes : list (Result R))
  : HookState R * list string :=
  fold_left (fun cl o => snd (mutate o cl)) outcomes
            (useConvexMutation_init, []).

(** The responses, and the messages, of a sequence of outcomes. *)
Fixpoint responsesOf {R : Type} (outcomes : list (Result R)) : list R :=
  match outcomes with
  | [] => []
  | Ok r :: rest => r :: responsesOf rest
  | Throw _ :: rest => responsesOf rest
  end.

Fixpoint messagesOf {R : Type} (outcomes : list (Result R)) : list string :=
  match outcomes with
  | [] => []
  | Ok _ :: rest => messagesOf rest
  | Throw m :: rest => m :: messagesOf rest
  end.

(** The last element of a list, if any. *)
Definition lastOf {A : Type} (l : list A) : option A :=
  match rev l with
  | [] => None
  | x :: _ => Some x
  end.

(* ------------------------------------------------------------------------- *)
(** ** ContactsPage (app/(main)/contacts/page.jsx) *)

(** What a person card and a group card show. *)
Record PersonCard := mkPersonCard {
  pc_key : Id;
  pc_href : string;
  pc_imageSrc : option jsstring;
  pc_fallback : jsstring;
  pc_name : jsstring;
  pc_email : jsstring
}.

Record GroupCard := mkGroupCard {
  gc_key : Id;
  gc_href : string;
  gc_name : jsstring;
  gc_memberCount : nat
}.

(** A column is the "nothing yet" card or one card for each item. *)
Inductive Listing (A : Type) : Type :=
| EmptyCard
| CardList (cards : list A).
Arguments EmptyCard {A}.
Arguments CardList {A} cards.

Inductive View : Type :=
| Spinner
| Page (people : Listing PersonCard) (groupCards : Listing GroupCard).

(** [s.charAt(0)] *)
Definition charAt0 (s : jsstring) : jsstring :=
  match s with
  | [] => []
  | c :: _ => [c]
  end.

Definition personCard (user : ContactUser) : PersonCard :=
  mkPersonCard (cu_id user) ("/person/" ++ cu_id user) (cu_imageUrl user)
               (charAt0 (cu_name user)) (cu_name user) (cu_email user).

Definition groupCard (group : ContactGroup) : GroupCard :=
  mkGroupCard (cg_id group) ("/groups/" ++ cg_id group) (cg_name group)
              (cg_memberCount group).

(** [items.length === 0 ? <Card>...</Card> : items.map(...)] *)
Definition listing {A B : Type} (card : A -> B) (items : list A) : Listing B :=
  match items with
  | [] => EmptyCard
  | _ :: _ => CardList (map card items)
  end.

(** The render, from the [isLoading] and [data] the query hook returned. *)
Definition ContactsPage (isLoading : bool) (data : option Contacts) : View :=
  if isLoading then Spinner
  else
    let d := match data with
             | Some d => d
             | None => mkContacts [] []
             end in
    Page (listing personCard (c_users d)) (listing groupCard (c_groups d)).

Definition cardsOf {A : Type} (l : Listing A) : list A :=
  match l with
  | EmptyCard => []
  | CardList cards => cards
  end.

Definition peopleOf (v : View) : Listing PersonCard :=
  match v with
  | Spinner => EmptyCard
  | Page people _ => people
  end.

Definition groupCardsOf (v : View) : Listing GroupCard :=
  match v with
  | Spinner => EmptyCard
  | Page _ groupCards => groupCards
  end.

(** The query string as its list of name-value pairs, in order. *)
Definition SearchParams := list (string * string).

(** [searchParams.get(name)]: the first value of that name, or [null]. *)
Definition URLSearchParams_get (name : string) (ps : SearchParams)
  : option string :=
  match find (fun p => String.eqb (fst p) name) ps with
  | Some p => Some (snd p)
  | None => None
  end.

(** [searchParams.delete(name)]: drops every pair of that name. *)
Definition URLSearchParams_delete (name : string) (ps : SearchParams)
  : SearchParams :=
  filter (fun p => negb (String.eqb (fst p) name)) ps.

(** The modal flag and the path and query of the current URL. *)
Record PageState := mkPageState {
  isCreateGroupModalOpen : bool;
  pathname : string;
  searchParams : SearchParams
}.

(** The [useEffect] of the page: on [?createGroup=true] it opens the modal
    and replaces the URL by one without that parameter. *)
Definition createGroupParamEffect (st : PageState) : PageState :=
  match URLSearchParams_get "createGroup" (searchParams st) with
  | Some createGroupParam =>
      if String.eqb createGroupParam "true"
      then mkPageState true (pathname st)
             (URLSearchParams_delete "createGroup" (searchParams st))
      else st
  | None => st
  end.

(* ------------------------------------------------------------------------- *)
(** ** Further notions used in the statements *)

Definition isAdmin (m : Member) : bool :=
  match m_role m with admin => true | member => false end.

(** The summary under which a created group is listed. *)
Definition createdSummary (gid : Id) (cu : User) (args : CreateGroupArgs)
  : ContactGroup :=
  mkContactGroup gid (trim (a_name args)) (Some (descriptionOf args))
                 (length (uniqueMembers cu args)).

(** The arguments with name and description already trimmed. *)
Definition trimmedArgs (args : CreateGroupArgs) : CreateGroupArgs :=
  mkArgs (trim (a_name args))
         (match a_description args with
          | Some d => Some (trim d)
          | None => None
          end)
         (a_members args).

Module MoreExamples.
Definition deepLink : PageState :=
  mkPageState false "/contacts"
    [("tab", "groups"); ("createGroup", "true"); ("createGroup", "1")].

Definition argsPair : CreateGroupArgs :=
  mkArgs (js "Pair") None ["b"].

(** The database after Vera created the group of [argsPair]. *)
Definition dbPairCreated : Db :=
  snd (createGroup Examples.frozen "g9" Examples.vera argsPair
         Examples.dbGhost).

End MoreExamples.

(* ------------------------------------------------------------------------- *)
(** ** Facts about the built-ins *)

Lemma Id_eqb_eq (a b : Id) : Id_eqb a b = true <-> a = b.
Proof. apply String.eqb_eq. Qed.

Lemma Id_eqb_neq (a b : Id) : Id_eqb a b = false <-> a <> b.
Proof. apply String.eqb_neq. Qed.

Lemma Set_has_In (x : Id) (s : IdSet) : Set_has x s = true <-> In x s.
Proof.
  unfold Set_has. rewrite existsb_exists. split.
  - intros [y [Hy He]]. apply Id_eqb_eq in He. now subst.
  - intros H. exists x. split; [assumption | now apply Id_eqb_eq].
Qed.

Lemma Set_add_In (x y : Id) (s : IdSet) :
  In y (Set_add x s) <-> y = x \/ In y s.
Proof.
  unfold Set_add. destruct (Set_has x s) eqn:Hx.
  - apply Set_has_In in Hx. split; [now right | intros [-> | H]; assumption].
  - rewrite in_app_iff. simpl. split.
    + intros [H | [H | []]]; [now right | now left].
    + intros [-> | H]; [right; now left | now left].
Qed.

Lemma Set_add_NoDup (x : Id) (s : IdSet) : NoDup s -> NoDup (Set_add x s).
Proof.
  intros Hs. unfold Set_add. destruct (Set_has x s) eqn:Hx; [assumption |].
  assert (Hn : ~ In x s).
  { intros Hin. apply Set_has_In in Hin. congruence. }
  apply NoDup_rev in Hs. rewrite <- (rev_involutive (s ++ [x])).
  apply NoDup_rev. rewrite rev_app_distr. simpl. constructor.
  - now rewrite <- in_rev.
  - assumption.
Qed.

Lemma Set_of_acc_In (l : list Id) (acc : IdSet) (y : Id) :
  In y (fold_left (fun s x => Set_add x s) l acc) <-> In y acc \/ In y l.
Proof.
  revert acc. induction l as [| x l IH]; intros acc; simpl.
  - tauto.
  - rewrite IH, Set_add_In. intuition congruence.
Qed.

Lemma Set_of_acc_NoDup (l : list Id) (acc : IdSet) :
  NoDup acc -> NoDup (fold_left (fun s x => Set_add x s) l acc).
Proof.
  revert acc. induction l as [| x l IH]; intros acc H; simpl.
  - assumption.
  - apply IH. now apply Set_add_NoDup.
Qed.

Lemma Set_of_In (l : list Id) (y : Id) : In y (Set_of l) <-> In y l.
Proof. unfold Set_of. rewrite Set_of_acc_In. simpl. tauto. Qed.

Lemma Set_of_NoDup (l : list Id) : NoDup (Set_of l).
Proof. apply Set_of_acc_NoDup. constructor. Qed.

Lemma filterBoolean_In {A : Type} (l : list (option A)) (a : A) :
  In a (filterBoolean l) <-> In (Some a) l.
Proof.
  induction l as [| [b |] l IH]; simpl.
  - tauto.
  - rewrite IH. split; intros [H | H]; auto; left; congruence.
  - rewrite IH. split; [auto | intros [H | H]; [discriminate | assumption]].
Qed.

Lemma filterBoolean_Permutation {A : Type} (l l' : list (option A)) :
  Permutation l l' -> Permutation (filterBoolean l) (filterBoolean l').
Proof.
  induction 1 as [| [a |] l l' _ IH | [a |] [b |] l | l1 l2 l3 _ IH1 _ IH2];
    simpl; auto.
  - apply perm_swap.
  - now transitivity (filterBoolean l2).
Qed.

Lemma filterBoolean_map_Some {A : Type} (l : list A) :
  filterBoolean (map Some l) = l.
Proof. induction l as [| a l IH]; simpl; congruence. Qed.

Section SortFacts.
Context {A : Type} (cmp : A -> A -> Z).

Lemma sortInsert_Permutation (x : A) (l : list A) :
  Permutation (sortInsert cmp x l) (x :: l).
Proof.
  induction l as [| y l IH]; simpl.
  - reflexivity.
  - destruct (cmp x y <=? 0)%Z.
    + reflexivity.
    + rewrite IH. apply perm_swap.
Qed.

Lemma Array_sort_Permutation (l : list A) : Permutation (Array_sort cmp l) l.
Proof.
  induction l as [| x l IH]; simpl.
  - reflexivity.
  - rewrite sortInsert_Permutation. now constructor.
Qed.

(** Stability: elements that compare equal to each other keep their
    relative order. *)
Lemma sortInsert_filter (p : A -> bool) (x : A) (l : list A) :
  (forall y, p x = true -> p y = true -> In y l -> cmp x y = 0%Z) ->
  filter p (sortInsert cmp x l) = filter p (x :: l).
Proof.
  induction l as [| y l IH]; intros Heq; simpl.
  - reflexivity.
  - destruct (cmp x y <=? 0)%Z eqn:Hc.
    + reflexivity.
    + simpl. rewrite IH by (intros z Hx Hz Hin; apply Heq; simpl; auto).
      simpl. destruct (p x) eqn:Hpx; [| reflexivity].
      destruct (p y) eqn:Hpy; [| reflexivity].
      specialize (Heq y eq_refl Hpy (or_introl eq_refl)).
      apply Z.leb_gt in Hc. lia.
Qed.

Lemma Array_sort_stable (p : A -> bool) (l : list A) :
  (forall x y, p x = true -> p y = true -> cmp x y = 0%Z) ->
  filter p (Array_sort cmp l) = filter p l.
Proof.
  intros Heq. induction l as [| x l IH]; simpl.
  - reflexivity.
  - rewrite sortInsert_filter by (intros; now apply Heq).
    simpl. now rewrite IH.
Qed.

Section Ordered.
Hypothesis cmp_total : forall a b, (0 < cmp a b)%Z -> (cmp b a <= 0)%Z.
Hypothesis cmp_trans :
  forall a b c, (cmp a b <= 0)%Z -> (cmp b c <= 0)%Z -> (cmp a c <= 0)%Z.

Lemma sortInsert_sorted (x : A) (l : list A) :
  StronglySorted (leBy cmp) l -> StronglySorted (leBy cmp) (sortInsert cmp x l).
Proof.
  induction 1 as [| y l Hs IH Hall]; simpl.
  - repeat constructor.
  - destruct (cmp x y <=? 0)%Z eqn:Hc.
    + apply Z.leb_le in Hc. constructor.
      * now constructor.
      * constructor; [exact Hc |].
        eapply Forall_impl; [| exact Hall].
        intros z Hz. unfold leBy in *. eapply cmp_trans; eassumption.
    + apply Z.leb_gt in Hc. constructor; [exact IH |].
      apply (Permutation_Forall (Permutation_sym (sortInsert_Permutation x l))).
      constructor; [| exact Hall].
      unfold leBy. now apply cmp_total.
Qed.

Lemma Array_sort_sorted (l : list A) :
  StronglySorted (leBy cmp) (Array_sort cmp l).
Proof.
  induction l as [| x l IH]; simpl.
  - constructor.
  - now apply sortInsert_sorted.
Qed.
End Ordered.
End SortFacts.

(** *** trim *)

Lemma trimStart_blank (s : jsstring) : allWhiteSpace s -> trimStart s = [].
Proof.
  induction 1 as [| c s Hc _ IH]; simpl.
  - reflexivity.
  - now rewrite Hc.
Qed.

Lemma trim_blank (s : jsstring) : allWhiteSpace s -> trim s = [].
Proof.
  intros H. unfold trim, trimEnd. now rewrite (trimStart_blank s H).
Qed.

Lemma trimStart_split (s : jsstring) :
  exists l, s = l ++ trimStart s /\ allWhiteSpace l /\ startsClean (trimStart s).
Proof.
  induction s as [| c s (l & Hs & Hl & Hc)]; simpl.
  - exists []. repeat split; [constructor | intros c t' H; discriminate].
  - destruct (isWhiteSpace c) eqn:Hw.
    + exists (c :: l). repeat split.
      * simpl. now f_equal.
      * now constructor.
      * assumption.
    + exists []. repeat split; [constructor |].
      intros c' t' H. now injection H as <- _.
Qed.

Lemma trimEnd_split (s : jsstring) :
  exists r, s = trimEnd s ++ r /\ allWhiteSpace r /\ endsClean (trimEnd s).
Proof.
  unfold trimEnd. destruct (trimStart_split (rev s)) as (l & Hs & Hl & Hc).
  exists (rev l). repeat split.
  - rewrite <- rev_app_distr, <- Hs. symmetry. apply rev_involutive.
  - unfold allWhiteSpace. now apply Forall_rev.
  - intros c t' H. apply (Hc c (rev t')).
    rewrite <- (rev_involutive (trimStart (rev s))), H, rev_app_distr.
    reflexivity.
Qed.

Lemma trim_Trimmed (s : jsstring) : Trimmed s (trim s).
Proof.
  unfold trim.
  destruct (trimStart_split s) as (l & Hs & Hl & Hc).
  destruct (trimEnd_split (trimStart s)) as (r & Ht & Hr & He).
  exists l, r. repeat split; try assumption.
  - now rewrite <- Ht.
  - intros c t' H. apply (Hc c (t' ++ r)). now rewrite Ht, H.
Qed.

(** *** The code-unit order is a consistent comparator *)

Lemma codeUnitCompare_refl (a : jsstring) : codeUnitCompare a a = 0%Z.
Proof.
  induction a as [| x a IH]; simpl; [reflexivity |].
  now rewrite N.compare_refl.
Qed.

Lemma codeUnitCompare_total (a b : jsstring) :
  (0 < codeUnitCompare a b)%Z -> (codeUnitCompare b a <= 0)%Z.
Proof.
  revert b. induction a as [| x a IH]; intros [| y b]; simpl; try lia.
  rewrite (N.compare_antisym x y).
  destruct (x ?= y)%N; simpl; try lia. apply IH.
Qed.

Lemma codeUnitCompare_trans (a b c : jsstring) :
  (codeUnitCompare a b <= 0)%Z -> (codeUnitCompare b c <= 0)%Z ->
  (codeUnitCompare a c <= 0)%Z.
Proof.
  revert b c.
  induction a as [| x a IH]; intros [| y b] [| z c]; simpl; try lia.
  destruct (N.compare_spec x y), (N.compare_spec y z), (N.compare_spec x z);
    subst; try lia.
  apply IH.
Qed.

Lemma codeUnitCompare_Consistent : Consistent codeUnitCompare.
Proof.
  constructor.
  - exact codeUnitCompare_refl.
  - exact codeUnitCompare_total.
  - exact codeUnitCompare_trans.
Qed.

Lemma jsstring_eqb_eq (a b : jsstring) : jsstring_eqb a b = true <-> a = b.
Proof.
  unfold jsstring_eqb. destruct (list_eq_dec N.eq_dec a b); split;
    congruence.
Qed.

(* ------------------------------------------------------------------------- *)
(** ** Facts about getAllContacts *)

Lemma isPersonal_true (e : Expense) : isPersonal e = true <-> groupId e = None.
Proof. unfold isPersonal. destruct (groupId e); split; congruence. Qed.

Lemma inSplits_true (me : Id) (e : Expense) :
  inSplits me e = true <-> exists s, In s (splits e) /\ s_userId s = me.
Proof.
  unfold inSplits. rewrite existsb_exists.
  split; intros [s [Hs He]]; exists s; split; auto; now apply Id_eqb_eq.
Qed.

Lemma isMemberOf_true (me : Id) (g : Group) :
  isMemberOf me g = true <-> exists m, In m (g_members g) /\ m_userId m = me.
Proof.
  unfold isMemberOf. rewrite existsb_exists.
  split; intros [m [Hm He]]; exists m; split; auto; now apply Id_eqb_eq.
Qed.

Lemma db_get_Some_id (db : Db) (id : Id) (u : User) :
  db_get db id = Some u -> u_id u = id.
Proof.
  unfold db_get. intros H. apply find_some in H as [_ H].
  now apply Id_eqb_eq.
Qed.

Lemma personalExpenses_In (db : Db) (me : Id) (e : Expense) :
  In e (personalExpenses db me) <->
  In e (expenses db) /\ groupId e = None /\ involves me e.
Proof.
  unfold personalExpenses, expensesYouPaid, expensesNotPaidByYou, involves.
  rewrite in_app_iff, !filter_In, !andb_true_iff, negb_true_iff.
  rewrite isPersonal_true, inSplits_true, Id_eqb_eq, Id_eqb_neq.
  split.
  - intros [(Hin & Hp & Hg) | ((Hin & Hg) & Hn & Hs)]; auto.
  - intros (Hin & Hg & Hv).
    destruct (string_dec (paidByUserId e) me) as [Heq | Hne]; [now left |].
    right. destruct Hv as [Hp | Hs]; [contradiction | auto].
Qed.

Lemma addSplits_In (me y : Id) (l : list Split) (acc : IdSet) :
  In y (fold_left
          (fun acc s =>
             if negb (Id_eqb (s_userId s) me) then Set_add (s_userId s) acc
             else acc) l acc) <->
  In y acc \/ (y <> me /\ exists s, In s l /\ s_userId s = y).
Proof.
  revert acc. induction l as [| s l IH]; intros acc; simpl.
  - split; [auto | intros [H | (_ & s & [] & _)]; assumption].
  - rewrite IH. destruct (Id_eqb (s_userId s) me) eqn:He; simpl.
    + apply Id_eqb_eq in He. split.
      * intros [H | (Hn & s' & Hs' & Hy)]; [now left |].
        right. split; [assumption |]. exists s'. auto.
      * intros [H | (Hn & s' & [<- | Hs'] & Hy)]; [now left | congruence |].
        right. split; [assumption |]. exists s'. auto.
    + apply Id_eqb_neq in He. rewrite Set_add_In. split.
      * intros [[-> | H] | (Hn & s' & Hs' & Hy)].
        -- right. split; [assumption |]. exists s. auto.
        -- now left.
        -- right. split; [assumption |]. exists s'. auto.
      * intros [H | (Hn & s' & [<- | Hs'] & Hy)].
        -- left. now right.
        -- left. left. now symmetry.
        -- right. split; [assumption |]. exists s'. auto.
Qed.

Lemma addSplits_NoDup (me : Id) (l : list Split) (acc : IdSet) :
  NoDup acc ->
  NoDup (fold_left
           (fun acc s =>
              if negb (Id_eqb (s_userId s) me) then Set_add (s_userId s) acc
              else acc) l acc).
Proof.
  revert acc. induction l as [| s l IH]; intros acc H; simpl.
  - assumption.
  - apply IH. destruct (negb (Id_eqb (s_userId s) me)).
    + now apply Set_add_NoDup.
    + assumption.
Qed.

Lemma addExpenseContacts_In (me y : Id) (ids : IdSet) (e : Expense) :
  In y (addExpenseContacts me ids e) <->
  In y ids \/ (y <> me /\ involves y e).
Proof.
  unfold addExpenseContacts, involves. rewrite addSplits_In.
  destruct (Id_eqb (paidByUserId e) me) eqn:He; simpl.
  - apply Id_eqb_eq in He. split.
    + intros [H | [Hn Hs]]; auto.
    + intros [H | [Hn [Hp | Hs]]]; auto. congruence.
  - apply Id_eqb_neq in He. rewrite Set_add_In. split.
    + intros [[-> | H] | [Hn Hs]]; auto.
    + intros [H | [Hn [Hp | Hs]]]; auto.
Qed.

Lemma addExpenseContacts_NoDup (me : Id) (ids : IdSet) (e : Expense) :
  NoDup ids -> NoDup (addExpenseContacts me ids e).
Proof.
  intros H. unfold addExpenseContacts. apply addSplits_NoDup.
  destruct (negb (Id_eqb (paidByUserId e) me)).
  - now apply Set_add_NoDup.
  - assumption.
Qed.

Lemma foldContacts_In (me y : Id) (l : list Expense) (acc : IdSet) :
  In y (fold_left (addExpenseContacts me) l acc) <->
  In y acc \/ (y <> me /\ exists e, In e l /\ involves y e).
Proof.
  revert acc. induction l as [| e l IH]; intros acc; simpl.
  - split; [auto | intros [H | (_ & e & [] & _)]; assumption].
  - rewrite IH, addExpenseContacts_In. split.
    + intros [[H | [Hn Hi]] | (Hn & e' & He' & Hi)].
      * now left.
      * right. split; [assumption |]. exists e. auto.
      * right. split; [assumption |]. exists e'. auto.
    + intros [H | (Hn & e' & [<- | He'] & Hi)].
      * left. now left.
      * left. now right.
      * right. split; [assumption |]. exists e'. auto.
Qed.

Lemma foldContacts_NoDup (me : Id) (l : list Expense) (acc : IdSet) :
  NoDup acc -> NoDup (fold_left (addExpenseContacts me) l acc).
Proof.
  revert acc. induction l as [| e l IH]; intros acc H; simpl.
  - assumption.
  - apply IH. now apply addExpenseContacts_NoDup.
Qed.

Lemma contactIds_In (db : Db) (me y : Id) :
  In y (contactIds db me) <->
  y <> me /\ exists e, In e (expenses db) /\ groupId e = None
                       /\ involves me e /\ involves y e.
Proof.
  unfold contactIds. rewrite foldContacts_In. simpl. split.
  - intros [[] | (Hn & e & He & Hi)]. split; [assumption |].
    apply personalExpenses_In in He as (H1 & H2 & H3). exists e. auto.
  - intros (Hn & e & H1 & H2 & H3 & Hi). right. split; [assumption |].
    exists e. split; [| assumption]. apply personalExpenses_In. auto.
Qed.

Lemma contactIds_NoDup (db : Db) (me : Id) : NoDup (contactIds db me).
Proof. apply foldContacts_NoDup. constructor. Qed.

Lemma resolveContact_Some (db : Db) (id : Id) (c : ContactUser) :
  resolveContact db id = Some c <->
  exists u, db_get db id = Some u /\ c = toContactUser u.
Proof.
  unfold resolveContact. destruct (db_get db id) as [u |]; split.
  - intros [= <-]. now exists u.
  - intros (u' & [= <-] & ->). reflexivity.
  - discriminate.
  - intros (u' & H & _). discriminate.
Qed.

Lemma resolveContact_id (db : Db) (id : Id) (c : ContactUser) :
  resolveContact db id = Some c -> cu_id c = id.
Proof.
  intros H. apply resolveContact_Some in H as (u & Hu & ->).
  simpl. now apply db_get_Some_id in Hu.
Qed.

(** The ids of the resolved contacts are pairwise distinct. *)
Lemma resolved_ids_NoDup (db : Db) (ids : list Id) :
  NoDup ids -> NoDup (map cu_id (filterBoolean (map (resolveContact db) ids))).
Proof.
  induction 1 as [| id ids Hn _ IH]; simpl.
  - constructor.
  - destruct (resolveContact db id) as [c |] eqn:Hc; [| assumption].
    simpl. constructor; [| assumption].
    rewrite (resolveContact_id _ _ _ Hc). intros Hin.
    apply in_map_iff in Hin as (c' & Hid & Hin).
    apply filterBoolean_In, in_map_iff in Hin as (id' & Hr & Hin').
    apply resolveContact_id in Hr. congruence.
Qed.

Section GetAllContactsFacts.
Variable lc : jsstring -> jsstring -> Z.

Lemma users_Permutation (db : Db) (me : Id) :
  Permutation (c_users (getAllContacts lc db me))
              (filterBoolean (contactUsers db me)).
Proof.
  simpl. apply filterBoolean_Permutation, Array_sort_Permutation.
Qed.

Lemma users_In (db : Db) (me : Id) (c : ContactUser) :
  In c (c_users (getAllContacts lc db me)) <->
  exists id, In id (contactIds db me) /\ resolveContact db id = Some c.
Proof.
  split.
  - intros H. apply (Permutation_in _ (users_Permutation db me)) in H.
    apply filterBoolean_In, in_map_iff in H as (id & Hr & Hin). eauto.
  - intros (id & Hin & Hr).
    apply (Permutation_in _ (Permutation_sym (users_Permutation db me))).
    apply filterBoolean_In, in_map_iff. eauto.
Qed.

Lemma users_ids_NoDup (db : Db) (me : Id) :
  NoDup (map cu_id (c_users (getAllContacts lc db me))).
Proof.
  eapply Permutation_NoDup.
  - apply Permutation_sym, Permutation_map, users_Permutation.
  - apply resolved_ids_NoDup, contactIds_NoDup.
Qed.

Lemma groups_Permutation (db : Db) (me : Id) :
  Permutation (c_groups (getAllContacts lc db me)) (userGroups db me).
Proof. simpl. apply Array_sort_Permutation. Qed.
End GetAllContactsFacts.

Lemma filter_filter_and {A : Type} (f g : A -> bool) (l : list A) :
  filter (fun x => f x && g x) (filter g l) = filter (fun x => f x && g x) l.
Proof.
  induction l as [| x l IH]; simpl; [reflexivity |].
  destruct (g x) eqn:Hg; simpl.
  - rewrite Hg, IH. reflexivity.
  - rewrite andb_false_r. exact IH.
Qed.

Lemma filter_idem {A : Type} (g : A -> bool) (l : list A) :
  filter g (filter g l) = filter g l.
Proof.
  induction l as [| x l IH]; simpl; [reflexivity |].
  destruct (g x) eqn:Hg; simpl; [rewrite Hg, IH |]; auto.
Qed.

Lemma personalExpenses_withoutGroupExpenses (db : Db) (me : Id) :
  personalExpenses (withoutGroupExpenses db) me = personalExpenses db me.
Proof.
  unfold personalExpenses, expensesYouPaid, expensesNotPaidByYou. simpl.
  now rewrite filter_filter_and, filter_idem.
Qed.

(** Selecting documents of a table keeps their ids distinct. *)
Lemma selected_group_ids_NoDup (keep : Group -> bool) (gs : list Group) :
  NoDup (map g_id gs) -> NoDup (map g_id (filter keep gs)).
Proof.
  induction gs as [| g gs IH]; simpl; intros Hgs; [constructor |].
  inversion Hgs as [| i0 ids0 Hfresh Hrest]; subst.
  destruct (keep g); simpl; [| now apply IH].
  constructor; [| now apply IH].
  contradict Hfresh.
  apply in_map_iff in Hfresh as (g' & Hsame & Hg').
  apply in_map_iff. exists g'. split; [exact Hsame |].
  now apply filter_In in Hg'.
Qed.

(* ------------------------------------------------------------------------- *)
(** ** Properties of getAllContacts *)

(** C1. The users list of [getAllContacts] holds exactly the other users who
    take part, as payer or in a split, in a personal expense (no [groupId])
    in which the viewer is the payer or in a split: a contact is listed if
    and only if it is the projection of such a user, no id is listed twice,
    and removing every expense that carries a [groupId] leaves the list
    unchanged. *)
Theorem getAllContacts_users_exact
  (lc : jsstring -> jsstring -> Z) (db : Db) (me : Id) :
  (forall c,
      In c (c_users (getAllContacts lc db me)) <->
      exists u e,
        db_get db (u_id u) = Some u /\ c = toContactUser u /\ u_id u <> me
        /\ In e (expenses db) /\ groupId e = None
        /\ involves me e /\ involves (u_id u) e)
  /\ NoDup (map cu_id (c_users (getAllContacts lc db me)))
  /\ c_users (getAllContacts lc (withoutGroupExpenses db) me)
     = c_users (getAllContacts lc db me).
Proof.
  split; [| split].
  - intros c. rewrite users_In. split.
    + intros (id & Hin & Hr).
      apply resolveContact_Some in Hr as (u & Hu & ->).
      pose proof (db_get_Some_id _ _ _ Hu) as Hid. subst id.
      apply contactIds_In in Hin as (Hn & e & H1 & H2 & H3 & H4).
      exists u, e. auto 10.
    + intros (u & e & Hu & -> & Hn & H1 & H2 & H3 & H4).
      exists (u_id u). split.
      * apply contactIds_In. split; [assumption |]. exists e. auto.
      * apply resolveContact_Some. eauto.
  - apply users_ids_NoDup.
  - simpl. unfold contactUsers, contactIds.
    rewrite personalExpenses_withoutGroupExpenses. reflexivity.
Qed.

(** C2. A contact id collected from the personal expenses that does not
    resolve to a user document is left out of the users list, and the call
    still returns its result: the users list is the projection of the ids
    that do resolve. *)
Theorem getAllContacts_drops_unresolved
  (lc : jsstring -> jsstring -> Z) (db : Db) (me id : Id) :
  In id (contactIds db me) ->
  db_get db id = None ->
  ~ In id (map cu_id (c_users (getAllContacts lc db me)))
  /\ Permutation (c_users (getAllContacts lc db me))
                 (filterBoolean (map (resolveContact db) (contactIds db me))).
Proof.
  intros Hin Hnone. split.
  - intros H. apply in_map_iff in H as (c & Hid & Hc).
    apply users_In in Hc as (id' & _ & Hr).
    pose proof (resolveContact_id _ _ _ Hr) as Hid'.
    apply resolveContact_Some in Hr as (u & Hu & _). congruence.
  - apply users_Permutation.
Qed.

Lemma getAllContacts_drops_unresolved_witness :
  In "ghost" (contactIds Examples.dbGhost "v")
  /\ db_get Examples.dbGhost "ghost" = None
  /\ ~ In "ghost"
       (map cu_id (c_users (getAllContacts codeUnitCompare Examples.dbGhost "v")))
  /\ map cu_id (c_users (getAllContacts codeUnitCompare Examples.dbGhost "v"))
     = ["b"].
Proof.
  split; [| split; [| split]].
  - vm_compute. auto.
  - reflexivity.
  - apply (getAllContacts_drops_unresolved codeUnitCompare Examples.dbGhost
             "v" "ghost").
    + vm_compute. auto.
    + reflexivity.
  - reflexivity.
Defined.

(** C4. The users list of [getAllContacts] never holds the viewer's own id,
    and, the ids of the groups table being unique, no group id occurs twice
    in the groups list. *)
Theorem getAllContacts_no_viewer_no_double_group
  (lc : jsstring -> jsstring -> Z) (db : Db) (me : Id) :
  NoDup (map g_id (groups db)) ->
  ~ In me (map cu_id (c_users (getAllContacts lc db me)))
  /\ NoDup (map cg_id (c_groups (getAllContacts lc db me))).
Proof.
  intros Hids. split.
  - intros H. apply in_map_iff in H as (c & Hid & Hc).
    apply users_In in Hc as (id & Hin & Hr).
    apply resolveContact_id in Hr.
    apply contactIds_In in Hin as [Hn _]. congruence.
  - eapply Permutation_NoDup.
    + apply Permutation_sym, Permutation_map, groups_Permutation.
    + unfold userGroups. rewrite map_map. simpl.
      now apply selected_group_ids_NoDup.
Qed.

Lemma getAllContacts_no_viewer_no_double_group_witness :
  NoDup (map g_id (groups Examples.dbGhost))
  /\ ~ In "v"
       (map cu_id (c_users (getAllContacts codeUnitCompare Examples.dbGhost "v")))
  /\ NoDup
       (map cg_id (c_groups (getAllContacts codeUnitCompare Examples.dbGhost "v"))).
Proof.
  assert (H : NoDup (map g_id (groups Examples.dbGhost))).
  { simpl. repeat constructor; simpl; intuition discriminate. }
  split; [exact H |].
  exact (getAllContacts_no_viewer_no_double_group codeUnitCompare
           Examples.dbGhost "v" H).
Defined.

(** C8. The groups list of [getAllContacts] holds exactly the groups whose
    member roster contains the viewer, each as its summary
    [{id, name, description, memberCount}] with [memberCount] the length of
    the roster. *)
Theorem getAllContacts_groups_exact
  (lc : jsstring -> jsstring -> Z) (db : Db) (me : Id) :
  Permutation (c_groups (getAllContacts lc db me))
              (map toContactGroup (filter (isMemberOf me) (groups db)))
  /\ (forall cg,
         In cg (c_groups (getAllContacts lc db me)) <->
         exists g,
           In g (groups db)
           /\ (exists m, In m (g_members g) /\ m_userId m = me)
           /\ cg = mkContactGroup (g_id g) (g_name g) (g_description g)
                     (length (g_members g))).
Proof.
  pose proof (groups_Permutation lc db me) as HP. split; [exact HP |].
  intros cg. split.
  - intros H. apply (Permutation_in _ HP) in H.
    apply in_map_iff in H as (g & <- & Hg).
    apply filter_In in Hg as [Hg Hm]. apply isMemberOf_true in Hm.
    exists g. auto.
  - intros (g & Hg & Hm & ->).
    apply (Permutation_in _ (Permutation_sym HP)).
    apply in_map_iff. exists g. split; [reflexivity |].
    apply filter_In. split; [assumption | now apply isMemberOf_true].
Qed.

(** *** Sorting when every contact resolves *)

Lemma all_resolved_map_Some {A : Type} (l : list (option A)) :
  (forall o, In o l -> o <> None) -> l = map Some (filterBoolean l).
Proof.
  induction l as [| [a |] l IH]; simpl; intros H.
  - reflexivity.
  - f_equal. apply IH. intros o Ho. apply H. now right.
  - exfalso. apply (H None); [now left | reflexivity].
Qed.

Section SortResolved.
Variable lc : jsstring -> jsstring -> Z.

Lemma sortInsert_map_Some (x : ContactUser) (l : list ContactUser) :
  sortInsert (compareUsers lc) (Some x) (map Some l)
  = map Some (sortInsert (byName lc) x l).
Proof.
  induction l as [| y l IH]; simpl.
  - reflexivity.
  - unfold byName at 1. destruct (lc (cu_name x) (cu_name y) <=? 0)%Z.
    + reflexivity.
    + simpl. now rewrite IH.
Qed.

Lemma Array_sort_map_Some (l : list ContactUser) :
  Array_sort (compareUsers lc) (map Some l)
  = map Some (Array_sort (byName lc) l).
Proof.
  induction l as [| x l IH]; simpl.
  - reflexivity.
  - now rewrite IH, sortInsert_map_Some.
Qed.
End SortResolved.

(** C3, as the specification words it, fails: two users of the same name are
    listed in the order in which their ids were collected ([u2] before [u1]),
    not in the order of their ids. *)
Lemma getAllContacts_ties_not_by_id :
  c_users (getAllContacts codeUnitCompare Examples.dbTies "v")
  = [toContactUser Examples.sam2; toContactUser Examples.sam1]
  /\ ~ StronglySorted nameThenIdLe
         (c_users (getAllContacts codeUnitCompare Examples.dbTies "v")).
Proof.
  split; [reflexivity |].
  intros H.
  change (c_users (getAllContacts codeUnitCompare Examples.dbTies "v"))
    with [toContactUser Examples.sam2; toContactUser Examples.sam1] in H.
  apply StronglySorted_inv in H as [_ H].
  apply Forall_inv in H. destruct H as [H | [_ H]].
  - vm_compute in H. discriminate.
  - apply H. reflexivity.
Qed.

(** C3, amended.  For a consistent [localeCompare] and a viewer whose
    collected contact ids all resolve, the users list of [getAllContacts] is
    ascending by name under [localeCompare], users of one name staying in
    the order in which their ids were collected; the groups list is
    ascending by name under [localeCompare], groups of one name staying in
    table order. *)
Theorem getAllContacts_sorted_by_localeCompare
  (lc : jsstring -> jsstring -> Z) (db : Db) (me : Id) :
  Consistent lc ->
  (forall id, In id (contactIds db me) -> db_get db id <> None) ->
  StronglySorted (userNameLe lc) (c_users (getAllContacts lc db me))
  /\ (forall n,
         filter (fun c => jsstring_eqb (cu_name c) n)
                (c_users (getAllContacts lc db me))
         = filter (fun c => jsstring_eqb (cu_name c) n)
                  (filterBoolean (map (resolveContact db) (contactIds db me))))
  /\ StronglySorted (groupNameLe lc) (c_groups (getAllContacts lc db me))
  /\ (forall n,
         filter (fun g => jsstring_eqb (cg_name g) n)
                (c_groups (getAllContacts lc db me))
         = filter (fun g => jsstring_eqb (cg_name g) n)
                  (map toContactGroup (filter (isMemberOf me) (groups db)))).
Proof.
  intros [Hrefl Htotal Htrans] Hres.
  assert (Hall : forall o, In o (contactUsers db me) -> o <> None).
  { intros o Ho. apply in_map_iff in Ho as (id & <- & Hin).
    unfold resolveContact. specialize (Hres id Hin).
    destruct (db_get db id); [discriminate | congruence]. }
  assert (Husers :
            c_users (getAllContacts lc db me)
            = Array_sort (byName lc) (filterBoolean (contactUsers db me))).
  { simpl. rewrite (all_resolved_map_Some _ Hall) at 1.
    now rewrite Array_sort_map_Some, filterBoolean_map_Some. }
  repeat split.
  - rewrite Husers.
    apply (Array_sort_sorted (byName lc)).
    + intros a b. apply Htotal.
    + intros a b c. apply Htrans.
  - intros n. rewrite Husers. apply Array_sort_stable.
    intros x y Hx Hy. apply jsstring_eqb_eq in Hx, Hy.
    unfold byName. rewrite Hx, Hy. apply Hrefl.
  - simpl. apply (Array_sort_sorted (compareGroups lc)).
    + intros a b. apply Htotal.
    + intros a b c. apply Htrans.
  - intros n. simpl. apply Array_sort_stable.
    intros x y Hx Hy. apply jsstring_eqb_eq in Hx, Hy.
    unfold compareGroups. rewrite Hx, Hy. apply Hrefl.
Qed.

Lemma getAllContacts_sorted_by_localeCompare_witness :
  Consistent codeUnitCompare
  /\ (forall id, In id (contactIds Examples.dbTies "v") ->
                 db_get Examples.dbTies id <> None)
  /\ StronglySorted (userNameLe codeUnitCompare)
       (c_users (getAllContacts codeUnitCompare Examples.dbTies "v"))
  /\ map cu_id (c_users (getAllContacts codeUnitCompare Examples.dbTies "v"))
     = ["u2"; "u1"].
Proof.
  assert (Hres : forall id, In id (contactIds Examples.dbTies "v") ->
                            db_get Examples.dbTies id <> None).
  { intros id Hin. vm_compute in Hin.
    destruct Hin as [<- | [<- | []]]; vm_compute; discriminate. }
  split; [exact codeUnitCompare_Consistent |].
  split; [exact Hres |].
  split; [| reflexivity].
  exact (proj1 (getAllContacts_sorted_by_localeCompare codeUnitCompare
                  Examples.dbTies "v" codeUnitCompare_Consistent Hres)).
Defined.

(* ------------------------------------------------------------------------- *)
(** ** Facts about createGroup *)

Lemma truthy_false (s : jsstring) : truthy s = false <-> s = [].
Proof. destruct s; simpl; split; congruence. Qed.

Lemma validateMembers_run (ids : list Id) (db : Db) :
  validateMembers ids db
  = match firstMissing db ids with
    | Some id => (Throw (UnknownUser id), db)
    | None => (Ok tt, db)
    end.
Proof.
  unfold firstMissing. induction ids as [| id ids IH]; simpl.
  - reflexivity.
  - unfold bind, ctx_db_get. destruct (db_get db id); [exact IH | reflexivity].
Qed.

Lemma firstMissing_Some (db : Db) (ids : list Id) :
  (exists id, In id ids /\ db_get db id = None) ->
  exists id, firstMissing db ids = Some id.
Proof.
  intros (id & Hin & Hnone). unfold firstMissing.
  destruct (find _ ids) as [id' |] eqn:Hf; [now exists id' |].
  apply (find_none _ _ Hf) in Hin. rewrite Hnone in Hin. discriminate.
Qed.

Lemma uniqueMembers_In (cu : User) (args : CreateGroupArgs) (id : Id) :
  In id (uniqueMembers cu args) <-> id = u_id cu \/ In id (a_members args).
Proof. unfold uniqueMembers. now rewrite Set_add_In, Set_of_In. Qed.

Lemma uniqueMembers_NoDup (cu : User) (args : CreateGroupArgs) :
  NoDup (uniqueMembers cu args).
Proof. apply Set_add_NoDup, Set_of_NoDup. Qed.

Section CreateGroupFacts.
Variable Date_now : nat -> Z.
Variable newId : Id.

Lemma buildMembers_ids (k : nat) (creator : Id) (ids : list Id) :
  map m_userId (buildMembers Date_now k creator ids) = ids.
Proof.
  revert k. induction ids as [| id ids IH]; intros k; simpl.
  - reflexivity.
  - now rewrite IH.
Qed.

Lemma buildMembers_In (k : nat) (creator : Id) (ids : list Id) (m : Member) :
  In m (buildMembers Date_now k creator ids) ->
  In (m_userId m) ids
  /\ m_role m = (if Id_eqb (m_userId m) creator then admin else member)
  /\ exists j, m_joinedAt m = Date_now j.
Proof.
  revert k. induction ids as [| id ids IH]; intros k; simpl.
  - intros [].
  - intros [<- | H]; simpl.
    + repeat split; [now left | now exists k].
    + destruct (IH _ H) as (H1 & H2 & H3). auto.
Qed.


(** What a successful call leaves behind. *)
Lemma createGroup_Ok (cu : User) (args : CreateGroupArgs) (db db' : Db)
  (gid : Id) :
  createGroup Date_now newId cu args db = (Ok gid, db') ->
  trim (a_name args) <> []
  /\ firstMissing db (uniqueMembers cu args) = None
  /\ gid = newId
  /\ db' = mkDb (users db) (expenses db)
             (groups db
              ++ [mkGroup newId (trim (a_name args))
                    (Some (descriptionOf args)) (u_id cu)
                    (buildMembers Date_now 0 (u_id cu)
                       (uniqueMembers cu args))]).
Proof.
  unfold createGroup.
  destruct (truthy (trim (a_name args))) eqn:Ht; simpl.
  - unfold bind. rewrite validateMembers_run.
    destruct (firstMissing db (uniqueMembers cu args)); [discriminate |].
    unfold ctx_db_insert_group. intros [= <- <-].
    repeat split. intros Hn. rewrite Hn in Ht. discriminate.
  - discriminate.
Qed.
End CreateGroupFacts.

(* ------------------------------------------------------------------------- *)
(** ** Properties of createGroup *)

(** C5, as the specification words it, fails: with a blank name and an
    unknown member id the call throws [InvalidGroupName], not [UnknownUser];
    the name is checked first. *)
Lemma createGroup_name_checked_first :
  (exists id,
      In id (uniqueMembers Examples.vera Examples.argsBlankGhost)
      /\ db_get Examples.dbGhost id = None)
  /\ createGroup Examples.frozen "g9" Examples.vera Examples.argsBlankGhost
       Examples.dbGhost
     = (Throw InvalidGroupName, Examples.dbGhost)
  /\ (forall id, InvalidGroupName <> UnknownUser id).
Proof.
  split; [| split].
  - exists "ghost". split; [vm_compute; auto | reflexivity].
  - reflexivity.
  - intros id. unfold InvalidGroupName, UnknownUser. simpl. discriminate.
Qed.

(** C5, amended.  A call of [createGroup] with a name that is not blank, in
    which some id of the deduplicated member set (the requested members and
    the caller) has no user document, throws [UnknownUser] for the first
    such id in the set's iteration order and leaves the database as it
    was. *)
Theorem createGroup_unknown_user
  (Date_now : nat -> Z) (newId : Id) (cu : User) (args : CreateGroupArgs)
  (db : Db) :
  trim (a_name args) <> [] ->
  (exists id, In id (uniqueMembers cu args) /\ db_get db id = None) ->
  exists id,
    firstMissing db (uniqueMembers cu args) = Some id
    /\ In id (uniqueMembers cu args)
    /\ db_get db id = None
    /\ createGroup Date_now newId cu args db = (Throw (UnknownUser id), db).
Proof.
  intros Hname Hmiss.
  destruct (firstMissing_Some _ _ Hmiss) as (id & Hid).
  exists id. split; [exact Hid |].
  pose proof Hid as Hf. unfold firstMissing in Hf.
  apply find_some in Hf as [Hin Hnone].
  split; [exact Hin |]. split.
  - destruct (db_get db id); [discriminate | reflexivity].
  - unfold createGroup.
    destruct (truthy (trim (a_name args))) eqn:Ht; simpl.
    + unfold bind. now rewrite validateMembers_run, Hid.
    + apply truthy_false in Ht. contradiction.
Qed.

Lemma createGroup_unknown_user_witness :
  trim (a_name Examples.argsGhost) <> []
  /\ (exists id,
         In id (uniqueMembers Examples.vera Examples.argsGhost)
         /\ db_get Examples.dbGhost id = None)
  /\ exists id,
       firstMissing Examples.dbGhost
         (uniqueMembers Examples.vera Examples.argsGhost) = Some id
       /\ In id (uniqueMembers Examples.vera Examples.argsGhost)
       /\ db_get Examples.dbGhost id = None
       /\ createGroup Examples.ticking "g9" Examples.vera Examples.argsGhost
            Examples.dbGhost
          = (Throw (UnknownUser id), Examples.dbGhost).
Proof.
  assert (H1 : trim (a_name Examples.argsGhost) <> []).
  { vm_compute. discriminate. }
  assert (H2 : exists id,
             In id (uniqueMembers Examples.vera Examples.argsGhost)
             /\ db_get Examples.dbGhost id = None).
  { exists "ghost". split; [vm_compute; auto | reflexivity]. }
  split; [exact H1 |]. split; [exact H2 |].
  exact (createGroup_unknown_user Examples.ticking "g9" Examples.vera
           Examples.argsGhost Examples.dbGhost H1 H2).
Defined.

(** C6. After a successful [createGroup] the database holds one more group,
    the one whose id is returned; its members contain every requested member
    id and the caller, their [userId]s are pairwise distinct, the caller has
    role [admin] and every other member has role [member]. *)
Theorem createGroup_members
  (Date_now : nat -> Z) (newId : Id) (cu : User) (args : CreateGroupArgs)
  (db db' : Db) (gid : Id) :
  createGroup Date_now newId cu args db = (Ok gid, db') ->
  exists g,
    groups db' = groups db ++ [g]
    /\ users db' = users db /\ expenses db' = expenses db
    /\ g_id g = gid
    /\ (forall id, In id (a_members args) -> In id (map m_userId (g_members g)))
    /\ In (u_id cu) (map m_userId (g_members g))
    /\ NoDup (map m_userId (g_members g))
    /\ (forall m, In m (g_members g) ->
                  (m_userId m = u_id cu -> m_role m = admin)
                  /\ (m_userId m <> u_id cu -> m_role m = member)).
Proof.
  intros H. apply createGroup_Ok in H as (_ & _ & -> & ->).
  eexists. split; [reflexivity |]. simpl. rewrite buildMembers_ids.
  repeat split.
  - intros id Hin. apply uniqueMembers_In. now right.
  - apply uniqueMembers_In. now left.
  - apply uniqueMembers_NoDup.
  - intros Heq. apply buildMembers_In in H as (_ & -> & _).
    apply Id_eqb_eq in Heq. now rewrite Heq.
  - intros Hne. apply buildMembers_In in H as (_ & -> & _).
    apply Id_eqb_neq in Hne. now rewrite Hne.
Qed.

Lemma createGroup_members_witness :
  createGroup Examples.ticking "g9" Examples.vera Examples.argsTrip
    Examples.dbGhost
  = (Ok "g9",
     snd (createGroup Examples.ticking "g9" Examples.vera Examples.argsTrip
            Examples.dbGhost))
  /\ exists g,
       groups (snd (createGroup Examples.ticking "g9" Examples.vera
                      Examples.argsTrip Examples.dbGhost))
       = groups Examples.dbGhost ++ [g]
       /\ map m_userId (g_members g) = ["b"; "u1"; "v"]
       /\ map m_role (g_members g) = [member; member; admin].
Proof.
  split; [reflexivity |].
  destruct (createGroup_members Examples.ticking "g9" Examples.vera
              Examples.argsTrip Examples.dbGhost _ "g9" eq_refl)
    as (g & Hg & _).
  exists g. split; [exact Hg |].
  apply app_inj_tail in Hg as [_ <-]. split; reflexivity.
Defined.

(** C7. A call of [createGroup] whose name is empty or made of whitespace
    only throws [InvalidGroupName] and leaves the database as it was. *)
Theorem createGroup_blank_name
  (Date_now : nat -> Z) (newId : Id) (cu : User) (args : CreateGroupArgs)
  (db : Db) :
  allWhiteSpace (a_name args) ->
  createGroup Date_now newId cu args db = (Throw InvalidGroupName, db).
Proof.
  intros H. unfold createGroup. now rewrite (trim_blank _ H).
Qed.

Lemma createGroup_blank_name_witness :
  allWhiteSpace (a_name Examples.argsBlank)
  /\ allWhiteSpace (a_name Examples.argsBlankGhost)
  /\ createGroup Examples.frozen "g9" Examples.vera Examples.argsBlank
       Examples.dbGhost
     = (Throw InvalidGroupName, Examples.dbGhost).
Proof.
  assert (H : allWhiteSpace (a_name Examples.argsBlank)).
  { repeat constructor. }
  split; [exact H |]. split; [constructor |].
  exact (createGroup_blank_name Examples.frozen "g9" Examples.vera
           Examples.argsBlank Examples.dbGhost H).
Defined.

Example createGroup_joinedAt_ticking :
  map (fun g => map m_joinedAt (g_members g))
      (groups (snd (createGroup Examples.ticking "g9" Examples.vera
                      Examples.argsTrip Examples.dbGhost)))
  = [[10; 10]; [20; 20];
     [1700000000000; 1700000000001; 1700000000002]]%Z.
Proof. reflexivity. Qed.




(** C10. The group that a successful [createGroup] persists has the input
    name with its surrounding whitespace removed as its name, and as its
    description the input description with its surrounding whitespace
    removed, or the empty string when no description was given. *)
Theorem createGroup_name_description
  (Date_now : nat -> Z) (newId : Id) (cu : User) (args : CreateGroupArgs)
  (db db' : Db) (gid : Id) :
  createGroup Date_now newId cu args db = (Ok gid, db') ->
  exists g,
    groups db' = groups db ++ [g]
    /\ g_id g = gid
    /\ g_name g = trim (a_name args)
    /\ Trimmed (a_name args) (g_name g)
    /\ match a_description args with
       | Some d => g_description g = Some (trim d)
                   /\ Trimmed d (trim d)
       | None => g_description g = Some (js "")
       end.
Proof.
  intros H. apply createGroup_Ok in H as (_ & _ & -> & ->).
  eexists. split; [reflexivity |]. simpl. repeat split.
  - apply trim_Trimmed.
  - unfold descriptionOf. destruct (a_description args) as [d |].
    + split; [reflexivity | apply trim_Trimmed].
    + reflexivity.
Qed.

Lemma createGroup_name_description_witness :
  createGroup Examples.frozen "g9" Examples.vera Examples.argsTrip
    Examples.dbGhost
  = (Ok "g9", Examples.dbTripCreated)
  /\ exists g,
       groups Examples.dbTripCreated = groups Examples.dbGhost ++ [g]
       /\ g_name g = js "Trip"
       /\ g_description g = Some (js "Lisbon").
Proof.
  split; [reflexivity |].
  destruct (createGroup_name_description Examples.frozen "g9" Examples.vera
              Examples.argsTrip Examples.dbGhost Examples.dbTripCreated "g9"
              eq_refl)
    as (g & Hg & _ & Hn & _ & Hd).
  exists g. split; [exact Hg |]. split.
  - rewrite Hn. reflexivity.
  - destruct Hd as [Hd _]. rewrite Hd. reflexivity.
Defined.

(* ------------------------------------------------------------------------- *)
(** ** Further facts *)

Lemma users_ids_In (lc : jsstring -> jsstring -> Z) (db : Db) (me id : Id) :
  In id (map cu_id (c_users (getAllContacts lc db me))) <->
  In id (contactIds db me) /\ db_get db id <> None.
Proof.
  rewrite in_map_iff. split.
  - intros (c & Hid & Hc). apply users_In in Hc as (id' & Hin & Hr).
    pose proof (resolveContact_id _ _ _ Hr) as Hid'.
    apply resolveContact_Some in Hr as (u & Hu & _).
    split; congruence.
  - intros [Hin Hres]. destruct (db_get db id) as [u |] eqn:Hu; [| congruence].
    exists (toContactUser u). split.
    + simpl. now apply db_get_Some_id in Hu.
    + apply users_In. exists id. split; [assumption |].
      apply resolveContact_Some. eauto.
Qed.

Lemma contactUsers_same_tables (db db' : Db) (me : Id) :
  users db' = users db -> expenses db' = expenses db ->
  contactUsers db' me = contactUsers db me.
Proof.
  intros Hu He.
  unfold contactUsers, contactIds, personalExpenses, expensesYouPaid,
    expensesNotPaidByYou, resolveContact, db_get.
  now rewrite Hu, He.
Qed.

Lemma trimStart_clean (t : jsstring) : startsClean t -> trimStart t = t.
Proof.
  intros H. destruct t as [| c t]; simpl; [reflexivity |].
  now rewrite (H c t eq_refl).
Qed.

Lemma trimEnd_clean (t : jsstring) : endsClean t -> trimEnd t = t.
Proof.
  intros H. unfold trimEnd.
  rewrite trimStart_clean; [apply rev_involutive |].
  intros c t' Hrev. apply (H c (rev t')).
  rewrite <- (rev_involutive t), Hrev. reflexivity.
Qed.

Lemma trim_idempotent (s : jsstring) : trim (trim s) = trim s.
Proof.
  destruct (trim_Trimmed s) as (l & r & _ & _ & _ & Hstart & Hend).
  unfold trim at 1. now rewrite (trimStart_clean _ Hstart), trimEnd_clean.
Qed.

(** The three ways a call of [createGroup] can end. *)
Lemma createGroup_run (Date_now : nat -> Z) (newId : Id) (cu : User)
  (args : CreateGroupArgs) (db : Db) :
  createGroup Date_now newId cu args db
  = if truthy (trim (a_name args))
    then match firstMissing db (uniqueMembers cu args) with
         | Some id => (Throw (UnknownUser id), db)
         | None =>
             (Ok newId,
              mkDb (users db) (expenses db)
                (groups db
                 ++ [mkGroup newId (trim (a_name args))
                       (Some (descriptionOf args)) (u_id cu)
                       (buildMembers Date_now 0 (u_id cu)
                          (uniqueMembers cu args))]))
         end
    else (Throw InvalidGroupName, db).
Proof.
  unfold createGroup. destruct (truthy (trim (a_name args))); simpl.
  - unfold bind. rewrite validateMembers_run.
    now destruct (firstMissing db (uniqueMembers cu args)).
  - reflexivity.
Qed.

Lemma firstMissing_None (db : Db) (ids : list Id) :
  firstMissing db ids = None <->
  forall id, In id ids -> db_get db id <> None.
Proof.
  unfold firstMissing. split.
  - intros H id Hin Hnone. apply (find_none _ _ H) in Hin.
    rewrite Hnone in Hin. discriminate.
  - intros H. destruct (find _ ids) as [id |] eqn:Hf; [| reflexivity].
    apply find_some in Hf as [Hin Hnone]. specialize (H id Hin).
    destruct (db_get db id); [discriminate | congruence].
Qed.

Lemma buildMembers_admins (Date_now : nat -> Z) (k : nat) (creator : Id)
  (ids : list Id) :
  NoDup ids ->
  length (filter isAdmin (buildMembers Date_now k creator ids))
  = if Set_has creator ids then 1 else 0.
Proof.
  intros Hnd. revert k. induction Hnd as [| id ids Hfresh _ IH]; intros k.
  - reflexivity.
  - cbn [buildMembers filter Set_has existsb]. unfold isAdmin at 1.
    cbn [m_role]. fold (Set_has creator ids).
    destruct (Id_eqb id creator) eqn:He.
    + apply Id_eqb_eq in He. subst id.
      rewrite (proj2 (Id_eqb_eq creator creator) eq_refl).
      cbn [orb length]. rewrite IH.
      destruct (Set_has creator ids) eqn:Hin; [| reflexivity].
      apply Set_has_In in Hin. contradiction.
    + apply Id_eqb_neq in He.
      assert (Hne : Id_eqb creator id = false)
        by (apply Id_eqb_neq; congruence).
      rewrite Hne. cbn [orb]. apply IH.
Qed.

(* ------------------------------------------------------------------------- *)
(** ** Further properties of getAllContacts *)

(** X1. Being a contact is symmetric between two existing users: [b] is
    listed for [a] if and only if [a] is listed for [b]. *)
Theorem getAllContacts_symmetric
  (lc : jsstring -> jsstring -> Z) (db : Db) (a b : Id) :
  db_get db a <> None ->
  db_get db b <> None ->
  In b (map cu_id (c_users (getAllContacts lc db a)))
  <-> In a (map cu_id (c_users (getAllContacts lc db b))).
Proof.
  intros Ha Hb. rewrite !users_ids_In, !contactIds_In.
  split; intros [(Hne & e & H1 & H2 & H3 & H4) _];
    (split; [| assumption]); (split; [congruence |]); exists e; auto.
Qed.

Lemma getAllContacts_symmetric_witness :
  db_get Examples.dbGhost "v" <> None
  /\ db_get Examples.dbGhost "b" <> None
  /\ In "v" (map cu_id
               (c_users (getAllContacts codeUnitCompare Examples.dbGhost "b")))
  /\ (In "b" (map cu_id
                (c_users (getAllContacts codeUnitCompare Examples.dbGhost "v")))
      <-> In "v" (map cu_id
                    (c_users (getAllContacts codeUnitCompare Examples.dbGhost
                                "b")))).
Proof.
  assert (Hv : db_get Examples.dbGhost "v" <> None) by (vm_compute; discriminate).
  assert (Hb : db_get Examples.dbGhost "b" <> None) by (vm_compute; discriminate).
  split; [exact Hv |]. split; [exact Hb |]. split; [vm_compute; auto |].
  exact (getAllContacts_symmetric codeUnitCompare Examples.dbGhost "v" "b"
           Hv Hb).
Defined.

(** X2. A viewer who takes part in no personal expense has an empty users
    list, whatever group expenses and group memberships there are. *)
Theorem getAllContacts_no_personal_expense
  (lc : jsstring -> jsstring -> Z) (db : Db) (me : Id) :
  (forall e, In e (expenses db) -> groupId e = None -> ~ involves me e) ->
  c_users (getAllContacts lc db me) = [].
Proof.
  intros Hnone.
  destruct (c_users (getAllContacts lc db me)) as [| c cs] eqn:Hc;
    [reflexivity |].
  assert (Hin : In c (c_users (getAllContacts lc db me)))
    by (rewrite Hc; now left).
  apply users_In in Hin as (id & Hin & _).
  apply contactIds_In in Hin as (_ & e & H1 & H2 & H3 & _).
  destruct (Hnone e H1 H2 H3).
Qed.

Lemma getAllContacts_no_personal_expense_witness :
  (forall e, In e (expenses Examples.dbGhost) -> groupId e = None ->
             ~ involves "u1" e)
  /\ c_users (getAllContacts codeUnitCompare Examples.dbGhost "u1") = []
  /\ c_groups (getAllContacts codeUnitCompare Examples.dbGhost "u1") <> [].
Proof.
  assert (H : forall e, In e (expenses Examples.dbGhost) ->
                        groupId e = None -> ~ involves "u1" e).
  { intros e [<- | [<- | []]] Hg; [| discriminate].
    intros [Hp | (s & [<- | [<- | []]] & Hs)]; discriminate. }
  split; [exact H |]. split; [| vm_compute; discriminate].
  exact (getAllContacts_no_personal_expense codeUnitCompare Examples.dbGhost
           "u1" H).
Defined.

(** X3. For a consistent [localeCompare] the groups list is ascending by
    name for every viewer, also when some contact id does not resolve. *)
Theorem getAllContacts_groups_sorted
  (lc : jsstring -> jsstring -> Z) (db : Db) (me : Id) :
  Consistent lc ->
  StronglySorted (groupNameLe lc) (c_groups (getAllContacts lc db me)).
Proof.
  intros [_ Htotal Htrans]. simpl.
  apply (Array_sort_sorted (compareGroups lc)).
  - intros a b. apply Htotal.
  - intros a b c. apply Htrans.
Qed.

Lemma getAllContacts_groups_sorted_witness :
  Consistent codeUnitCompare
  /\ db_get Examples.dbGhost "ghost" = None
  /\ In "ghost" (contactIds Examples.dbGhost "b")
  /\ map cg_id (c_groups (getAllContacts codeUnitCompare Examples.dbGhost "b"))
     = ["g2"; "g1"]
  /\ StronglySorted (groupNameLe codeUnitCompare)
       (c_groups (getAllContacts codeUnitCompare Examples.dbGhost "b")).
Proof.
  split; [exact codeUnitCompare_Consistent |].
  split; [reflexivity |]. split; [vm_compute; auto |].
  split; [reflexivity |].
  exact (getAllContacts_groups_sorted codeUnitCompare Examples.dbGhost "b"
           codeUnitCompare_Consistent).
Defined.

(** X4. Every group in the groups list has a member count of at least one:
    the viewer is on its roster. *)
Theorem getAllContacts_memberCount_positive
  (lc : jsstring -> jsstring -> Z) (db : Db) (me : Id) :
  Forall (fun cg => 1 <= cg_memberCount cg)
         (c_groups (getAllContacts lc db me)).
Proof.
  apply Forall_forall. intros cg Hin.
  apply (Permutation_in _ (groups_Permutation lc db me)) in Hin.
  apply in_map_iff in Hin as (g & <- & Hg).
  apply filter_In in Hg as [_ Hm].
  apply isMemberOf_true in Hm as (m & Hm & _). simpl.
  destruct (g_members g); [destruct Hm | simpl; lia].
Qed.

(* ------------------------------------------------------------------------- *)
(** ** Further properties of createGroup *)

(** X5. [createGroup] succeeds exactly when the name is not blank and the
    caller and every requested member have a user document. *)
Theorem createGroup_succeeds_iff
  (Date_now : nat -> Z) (newId : Id) (cu : User) (args : CreateGroupArgs)
  (db : Db) :
  (exists gid db', createGroup Date_now newId cu args db = (Ok gid, db'))
  <-> trim (a_name args) <> []
      /\ db_get db (u_id cu) <> None
      /\ Forall (fun id => db_get db id <> None) (a_members args).
Proof.
  rewrite createGroup_run, Forall_forall. split.
  - intros (gid & db' & H).
    destruct (truthy (trim (a_name args))) eqn:Ht; [| discriminate].
    destruct (firstMissing db (uniqueMembers cu args)) eqn:Hf;
      [discriminate |].
    pose proof (proj1 (firstMissing_None _ _) Hf) as Hall.
    repeat split.
    + intros Hn. rewrite Hn in Ht. discriminate.
    + apply Hall, uniqueMembers_In. now left.
    + intros id Hin. apply Hall, uniqueMembers_In. now right.
  - intros (Hname & Hcu & Hall).
    destruct (truthy (trim (a_name args))) eqn:Ht.
    + assert (Hf : firstMissing db (uniqueMembers cu args) = None).
      { apply firstMissing_None. intros id Hin.
        apply uniqueMembers_In in Hin as [-> | Hin]; auto. }
      rewrite Hf. eauto.
    + apply truthy_false in Ht. contradiction.
Qed.

(** X6. A call of [createGroup] ends in one of three ways only: it throws
    [InvalidGroupName] or [UnknownUser] of a member without a user document
    and leaves the database as it was, or it returns the allocated id and
    appends one group after the existing ones, the users and expenses
    tables untouched. *)
Theorem createGroup_outcomes
  (Date_now : nat -> Z) (newId : Id) (cu : User) (args : CreateGroupArgs)
  (db : Db) :
  match createGroup Date_now newId cu args db with
  | (Ok gid, db') =>
      gid = newId /\ users db' = users db /\ expenses db' = expenses db
      /\ exists g, groups db' = groups db ++ [g] /\ g_id g = newId
  | (Throw message, db') =>
      db' = db
      /\ (message = InvalidGroupName
          \/ exists id, In id (uniqueMembers cu args) /\ db_get db id = None
                        /\ message = UnknownUser id)
  end.
Proof.
  rewrite createGroup_run.
  destruct (truthy (trim (a_name args))); [| auto].
  destruct (firstMissing db (uniqueMembers cu args)) as [id |] eqn:Hf.
  - split; [reflexivity |]. right. exists id.
    unfold firstMissing in Hf. apply find_some in Hf as [Hin Hnone].
    repeat split; [assumption |].
    destruct (db_get db id); [discriminate | reflexivity].
  - simpl. repeat split. eexists. split; reflexivity.
Qed.

(** X7. The group that a successful [createGroup] persists records the
    caller as its creator and has exactly one member of role [admin], the
    creator. *)
Theorem createGroup_one_admin
  (Date_now : nat -> Z) (newId : Id) (cu : User) (args : CreateGroupArgs)
  (db db' : Db) (gid : Id) :
  createGroup Date_now newId cu args db = (Ok gid, db') ->
  exists g,
    groups db' = groups db ++ [g]
    /\ g_createdBy g = u_id cu
    /\ length (filter isAdmin (g_members g)) = 1
    /\ Forall (fun m => m_userId m = g_createdBy g)
              (filter isAdmin (g_members g)).
Proof.
  intros H. apply createGroup_Ok in H as (_ & _ & -> & ->).
  eexists. split; [reflexivity |]. simpl. repeat split.
  - rewrite buildMembers_admins by apply uniqueMembers_NoDup.
    assert (Hin : In (u_id cu) (uniqueMembers cu args))
      by (apply uniqueMembers_In; now left).
    apply Set_has_In in Hin. now rewrite Hin.
  - apply Forall_forall. intros m Hm. apply filter_In in Hm as [Hm Hadm].
    apply buildMembers_In in Hm as (_ & Hrole & _).
    unfold isAdmin in Hadm. rewrite Hrole in Hadm.
    destruct (Id_eqb (m_userId m) (u_id cu)) eqn:He; [| discriminate].
    now apply Id_eqb_eq.
Qed.

Lemma createGroup_one_admin_witness :
  createGroup Examples.ticking "g9" Examples.bob Examples.argsTrip
    Examples.dbGhost
  = (Ok "g9",
     snd (createGroup Examples.ticking "g9" Examples.bob Examples.argsTrip
            Examples.dbGhost))
  /\ exists g,
       groups (snd (createGroup Examples.ticking "g9" Examples.bob
                      Examples.argsTrip Examples.dbGhost))
       = groups Examples.dbGhost ++ [g]
       /\ g_createdBy g = "b"
       /\ length (filter isAdmin (g_members g)) = 1
       /\ Forall (fun m => m_userId m = g_createdBy g)
                 (filter isAdmin (g_members g)).
Proof.
  split; [reflexivity |].
  exact (createGroup_one_admin Examples.ticking "g9" Examples.bob
           Examples.argsTrip Examples.dbGhost _ "g9" eq_refl).
Defined.

(** X8. The group that a successful [createGroup] persists has as many
    members as there are distinct ids among the caller and the requested
    members: at least one and at most one more than the number of requested
    ids. *)
Theorem createGroup_member_count
  (Date_now : nat -> Z) (newId : Id) (cu : User) (args : CreateGroupArgs)
  (db db' : Db) (gid : Id) :
  createGroup Date_now newId cu args db = (Ok gid, db') ->
  exists g,
    groups db' = groups db ++ [g]
    /\ length (g_members g)
       = length (nodup string_dec (u_id cu :: a_members args))
    /\ 1 <= length (g_members g) <= S (length (a_members args)).
Proof.
  intros H. apply createGroup_Ok in H as (_ & _ & -> & ->).
  eexists. split; [reflexivity |]. cbn [g_members].
  rewrite <- (length_map m_userId), buildMembers_ids.
  pose proof (uniqueMembers_NoDup cu args) as Hnd.
  assert (Hincl : incl (uniqueMembers cu args) (u_id cu :: a_members args)).
  { intros id Hin. apply uniqueMembers_In in Hin as [-> | Hin];
      [now left | now right]. }
  repeat split.
  - apply Permutation_length, NoDup_Permutation.
    + exact Hnd.
    + apply NoDup_nodup.
    + intros id. rewrite nodup_In, uniqueMembers_In. simpl.
      intuition congruence.
  - assert (Hin : In (u_id cu) (uniqueMembers cu args))
      by (apply uniqueMembers_In; now left).
    destruct (uniqueMembers cu args); [destruct Hin | simpl; lia].
  - apply (NoDup_incl_length Hnd Hincl).
Qed.

Lemma createGroup_member_count_witness :
  createGroup Examples.frozen "g9" Examples.vera Examples.argsTrip
    Examples.dbGhost
  = (Ok "g9", Examples.dbTripCreated)
  /\ length (a_members Examples.argsTrip) = 3
  /\ exists g,
       groups Examples.dbTripCreated = groups Examples.dbGhost ++ [g]
       /\ length (g_members g) = 3.
Proof.
  split; [reflexivity |]. split; [reflexivity |].
  destruct (createGroup_member_count Examples.frozen "g9" Examples.vera
              Examples.argsTrip Examples.dbGhost Examples.dbTripCreated "g9"
              eq_refl)
    as (g & Hg & Hlen & _).
  exists g. split; [exact Hg |]. rewrite Hlen. reflexivity.
Defined.

(** X9. Whitespace around the name and the description does not matter:
    the call with both already trimmed ends exactly as the call with the
    raw strings. *)
Theorem createGroup_trims_first
  (Date_now : nat -> Z) (newId : Id) (cu : User) (args : CreateGroupArgs)
  (db : Db) :
  createGroup Date_now newId cu (trimmedArgs args) db
  = createGroup Date_now newId cu args db.
Proof.
  rewrite !createGroup_run.
  assert (Hd : descriptionOf (trimmedArgs args) = descriptionOf args).
  { unfold descriptionOf, trimmedArgs. simpl.
    destruct (a_description args); [apply trim_idempotent | reflexivity]. }
  rewrite Hd. unfold trimmedArgs at 1 3. simpl.
  rewrite trim_idempotent. reflexivity.
Qed.

(** X10. Every member of the group that a successful [createGroup]
    persists has a user document in the resulting database. *)
Theorem createGroup_roster_resolves
  (Date_now : nat -> Z) (newId : Id) (cu : User) (args : CreateGroupArgs)
  (db db' : Db) (gid : Id) :
  createGroup Date_now newId cu args db = (Ok gid, db') ->
  exists g,
    groups db' = groups db ++ [g]
    /\ Forall (fun m => db_get db' (m_userId m) <> None) (g_members g).
Proof.
  intros H. apply createGroup_Ok in H as (_ & Hf & -> & ->).
  eexists. split; [reflexivity |]. simpl.
  apply Forall_forall. intros m Hm.
  apply buildMembers_In in Hm as (Hin & _).
  exact (proj1 (firstMissing_None _ _) Hf _ Hin).
Qed.

Lemma createGroup_roster_resolves_witness :
  createGroup Examples.frozen "g9" Examples.vera Examples.argsTrip
    Examples.dbGhost
  = (Ok "g9", Examples.dbTripCreated)
  /\ exists g,
       groups Examples.dbTripCreated = groups Examples.dbGhost ++ [g]
       /\ Forall (fun m => db_get Examples.dbTripCreated (m_userId m) <> None)
                 (g_members g).
Proof.
  split; [reflexivity |].
  exact (createGroup_roster_resolves Examples.frozen "g9" Examples.vera
           Examples.argsTrip Examples.dbGhost Examples.dbTripCreated "g9"
           eq_refl).
Defined.

(* ------------------------------------------------------------------------- *)
(** ** createGroup followed by getAllContacts *)

(** X11. After a successful [createGroup], [getAllContacts] lists the new
    group for the caller and for every requested member, under the returned
    id, with the trimmed name and description and the number of distinct
    members as [memberCount]. *)
Theorem createGroup_then_listed
  (lc : jsstring -> jsstring -> Z) (Date_now : nat -> Z) (newId : Id)
  (cu : User) (args : CreateGroupArgs) (db db' : Db) (gid viewer : Id) :
  createGroup Date_now newId cu args db = (Ok gid, db') ->
  In viewer (u_id cu :: a_members args) ->
  In (createdSummary gid cu args) (c_groups (getAllContacts lc db' viewer)).
Proof.
  intros H Hv. apply createGroup_Ok in H as (_ & _ & -> & ->).
  apply (Permutation_in _ (Permutation_sym (groups_Permutation lc _ viewer))).
  unfold userGroups. cbn [groups]. rewrite filter_app, map_app.
  apply in_or_app. right.
  set (g := mkGroup newId (trim (a_name args)) (Some (descriptionOf args))
              (u_id cu)
              (buildMembers Date_now 0 (u_id cu) (uniqueMembers cu args))).
  assert (Hm : isMemberOf viewer g = true).
  { apply isMemberOf_true.
    assert (Hin : In viewer (map m_userId (g_members g))).
    { subst g. cbn [g_members]. rewrite buildMembers_ids.
      apply uniqueMembers_In. destruct Hv as [<- | Hv]; auto. }
    apply in_map_iff in Hin as (m & Hid & Hin). eauto. }
  cbn [filter]. rewrite Hm. left.
  unfold toContactGroup, createdSummary. subst g. cbn.
  rewrite <- (length_map m_userId (buildMembers _ _ _ _)), buildMembers_ids.
  reflexivity.
Qed.

Lemma createGroup_then_listed_witness :
  createGroup Examples.frozen "g9" Examples.vera Examples.argsTrip
    Examples.dbGhost
  = (Ok "g9", Examples.dbTripCreated)
  /\ In "u1" (u_id Examples.vera :: a_members Examples.argsTrip)
  /\ createdSummary "g9" Examples.vera Examples.argsTrip
     = mkContactGroup "g9" (js "Trip") (Some (js "Lisbon")) 3
  /\ In (createdSummary "g9" Examples.vera Examples.argsTrip)
        (c_groups (getAllContacts codeUnitCompare Examples.dbTripCreated "u1")).
Proof.
  assert (Hin : In "u1" (u_id Examples.vera :: a_members Examples.argsTrip)).
  { simpl. auto. }
  split; [reflexivity |]. split; [exact Hin |]. split; [reflexivity |].
  exact (createGroup_then_listed codeUnitCompare Examples.frozen "g9"
           Examples.vera Examples.argsTrip Examples.dbGhost
           Examples.dbTripCreated "g9" "u1" eq_refl Hin).
Defined.

(** X12. However a call of [createGroup] ends, it changes nobody's users
    list: [getAllContacts] returns the same users before and after. *)
Theorem createGroup_keeps_user_contacts
  (lc : jsstring -> jsstring -> Z) (Date_now : nat -> Z) (newId : Id)
  (cu : User) (args : CreateGroupArgs) (db : Db) (viewer : Id) :
  c_users (getAllContacts lc (snd (createGroup Date_now newId cu args db))
             viewer)
  = c_users (getAllContacts lc db viewer).
Proof.
  rewrite createGroup_run.
  destruct (truthy (trim (a_name args))); [| reflexivity].
  destruct (firstMissing db (uniqueMembers cu args)); [reflexivity |].
  cbn [snd]. unfold getAllContacts. cbn [c_users].
  match goal with
  | |- context [contactUsers ?d viewer] =>
      rewrite (contactUsers_same_tables db d viewer eq_refl eq_refl)
  end.
  reflexivity.
Qed.

(** X13. However a call of [createGroup] ends, the groups list of a viewer
    who is neither the caller nor a requested member stays the same. *)
Theorem createGroup_keeps_other_group_lists
  (lc : jsstring -> jsstring -> Z) (Date_now : nat -> Z) (newId : Id)
  (cu : User) (args : CreateGroupArgs) (db : Db) (viewer : Id) :
  ~ In viewer (u_id cu :: a_members args) ->
  c_groups (getAllContacts lc (snd (createGroup Date_now newId cu args db))
              viewer)
  = c_groups (getAllContacts lc db viewer).
Proof.
  intros Hv. rewrite createGroup_run.
  destruct (truthy (trim (a_name args))); [| reflexivity].
  destruct (firstMissing db (uniqueMembers cu args)); [reflexivity |].
  cbn [snd]. unfold getAllContacts, userGroups. cbn [c_groups groups].
  rewrite filter_app. cbn [filter].
  set (g := mkGroup _ _ _ _ _).
  assert (Hm : isMemberOf viewer g = false).
  { destruct (isMemberOf viewer g) eqn:Hm; [| reflexivity].
    apply isMemberOf_true in Hm as (m & Hm & Hid). exfalso. apply Hv.
    subst g. cbn [g_members] in Hm.
    apply buildMembers_In in Hm as (Hin & _). rewrite Hid in Hin.
    apply uniqueMembers_In in Hin as [-> | Hin]; [now left | now right]. }
  rewrite Hm, app_nil_r. reflexivity.
Qed.

Lemma createGroup_keeps_other_group_lists_witness :
  ~ In "u1" (u_id Examples.vera :: a_members MoreExamples.argsPair)
  /\ groups MoreExamples.dbPairCreated <> groups Examples.dbGhost
  /\ c_groups (getAllContacts codeUnitCompare MoreExamples.dbPairCreated "u1")
     = c_groups (getAllContacts codeUnitCompare Examples.dbGhost "u1").
Proof.
  assert (H : ~ In "u1" (u_id Examples.vera :: a_members MoreExamples.argsPair)).
  { simpl. intuition discriminate. }
  split; [exact H |]. split; [vm_compute; discriminate |].
  exact (createGroup_keeps_other_group_lists codeUnitCompare Examples.frozen
           "g9" Examples.vera MoreExamples.argsPair Examples.dbGhost "u1" H).
Defined.

(* ------------------------------------------------------------------------- *)
(** ** Facts about the hooks and the page *)

Lemma lastOf_snoc {A : Type} (l : list A) (x : A) : lastOf (l ++ [x]) = Some x.
Proof. unfold lastOf. now rewrite rev_app_distr. Qed.

Lemma filterBoolean_app {A : Type} (l l' : list (option A)) :
  filterBoolean (l ++ l') = filterBoolean l ++ filterBoolean l'.
Proof.
  induction l as [| [a |] l IH]; simpl; [reflexivity | | assumption].
  now rewrite IH.
Qed.

Lemma responsesOf_app {R : Type} (l l' : list (Result R)) :
  responsesOf (l ++ l') = responsesOf l ++ responsesOf l'.
Proof.
  induction l as [| [r | m] l IH]; simpl; [reflexivity | | assumption].
  now rewrite IH.
Qed.

Lemma messagesOf_app {R : Type} (l l' : list (Result R)) :
  messagesOf (l ++ l') = messagesOf l ++ messagesOf l'.
Proof.
  induction l as [| [r | m] l IH]; simpl; [reflexivity | assumption |].
  now rewrite IH.
Qed.

Lemma useConvexQuery_after_snoc {R : Type} (results : list (option R))
  (r : option R) :
  useConvexQuery_after (results ++ [r])
  = useConvexQuery_effect r (useConvexQuery_after results).
Proof. unfold useConvexQuery_after. now rewrite fold_left_app. Qed.

Lemma mutateAll_snoc {R : Type} (outcomes : list (Result R)) (o : Result R) :
  mutateAll (outcomes ++ [o]) = snd (mutate o (mutateAll outcomes)).
Proof. unfold mutateAll. now rewrite fold_left_app. Qed.

Lemma cardsOf_listing {A B : Type} (card : A -> B) (items : list A) :
  cardsOf (listing card items) = map card items.
Proof. now destruct items. Qed.

Lemma get_after_delete (name : string) (ps : SearchParams) :
  URLSearchParams_get name (URLSearchParams_delete name ps) = None.
Proof.
  unfold URLSearchParams_get, URLSearchParams_delete.
  destruct (find _ (filter _ ps)) as [p |] eqn:Hf; [| reflexivity].
  apply find_some in Hf as [Hin Hname].
  apply filter_In in Hin as [_ Hneg]. rewrite Hname in Hneg. discriminate.
Qed.

(* ------------------------------------------------------------------------- *)
(** ** Properties of the hooks *)

(** X14. After the effect of [useConvexQuery] ran for any succession of
    query results, [error] is still null, [data] is the last result that was
    not [undefined] (it stays while a later result is pending), and
    [isLoading] tells whether the latest result is [undefined]. *)
Theorem useConvexQuery_state
  {R : Type} (results : list (option R)) :
  h_error (useConvexQuery_after results) = None
  /\ h_data (useConvexQuery_after results) = lastOf (filterBoolean results)
  /\ h_isLoading (useConvexQuery_after results)
     = match lastOf results with
       | Some (Some _) => false
       | _ => true
       end.
Proof.
  induction results as [| r results (He & Hd & Hl)] using rev_ind.
  - repeat split.
  - rewrite useConvexQuery_after_snoc, lastOf_snoc, filterBoolean_app.
    destruct r as [d |]; simpl.
    + rewrite lastOf_snoc. repeat split.
    + rewrite app_nil_r. repeat split; assumption.
Qed.

(** X15. After any succession of awaited [mutate] calls, [isLoading] is
    false, [data] is the response of the last call that succeeded (a later
    failure does not clear it), [error] is the message of the latest call if
    that one failed and null otherwise, and one toast was shown for each
    failure, in order; each call hands its outcome on to its caller. *)
Theorem useConvexMutation_state
  {R : Type} (outcomes : list (Result R)) :
  h_isLoading (fst (mutateAll outcomes)) = false
  /\ h_data (fst (mutateAll outcomes)) = lastOf (responsesOf outcomes)
  /\ h_error (fst (mutateAll outcomes))
     = match lastOf outcomes with
       | Some (Throw message) => Some message
       | _ => None
       end
  /\ snd (mutateAll outcomes) = messagesOf outcomes
  /\ forall o, fst (mutate o (mutateAll outcomes)) = o.
Proof.
  induction outcomes as [| o outcomes (Hl & Hd & He & Ht & _)] using rev_ind.
  - repeat split. intros [r | m]; reflexivity.
  - rewrite mutateAll_snoc, lastOf_snoc, responsesOf_app, messagesOf_app.
    destruct (mutateAll outcomes) as [st toasts]. simpl in Hl, Hd, He, Ht.
    destruct o as [r | m]; simpl.
    + rewrite lastOf_snoc, app_nil_r.
      repeat split; [assumption |]. intros [r' | m']; reflexivity.
    + rewrite app_nil_r, Ht.
      repeat split; [assumption |]. intros [r' | m']; reflexivity.
Qed.

(** X16. Once the effect of [useConvexQuery] has run for the results
    received so far, [ContactsPage] rendered from the hook's state shows the
    spinner if there was no result yet or the latest one is [undefined], and
    otherwise the page of the latest result; a state in which [isLoading] is
    false always holds [data], so the empty fallback object is not
    rendered.  (A render that takes place before the effect has run for a
    new result still shows the state of the results before it.) *)
Theorem ContactsPage_renders_latest (results : list (option Contacts)) :
  ContactsPage (h_isLoading (useConvexQuery_after results))
               (h_data (useConvexQuery_after results))
  = match lastOf results with
    | Some (Some d) =>
        Page (listing personCard (c_users d)) (listing groupCard (c_groups d))
    | _ => Spinner
    end
  /\ (h_isLoading (useConvexQuery_after results) = true
      \/ exists d, h_data (useConvexQuery_after results) = Some d).
Proof.
  destruct results as [| r results] using rev_ind.
  - split; [reflexivity | now left].
  - rewrite useConvexQuery_after_snoc, lastOf_snoc.
    destruct r as [d |]; (split; [reflexivity |]).
    + right. now exists d.
    + now left.
Qed.

(* ------------------------------------------------------------------------- *)
(** ** Properties of ContactsPage *)

(** X17. Rendered from a result of [getAllContacts], the People column has
    one card for each listed user, in the same order, and the cards' keys
    and their links [/person/<id>] are pairwise distinct. *)
Theorem ContactsPage_person_cards
  (lc : jsstring -> jsstring -> Z) (db : Db) (me : Id) :
  map pc_key
      (cardsOf (peopleOf (ContactsPage false (Some (getAllContacts lc db me)))))
  = map cu_id (c_users (getAllContacts lc db me))
  /\ NoDup (map pc_key
              (cardsOf (peopleOf (ContactsPage false
                                    (Some (getAllContacts lc db me))))))
  /\ NoDup (map pc_href
              (cardsOf (peopleOf (ContactsPage false
                                    (Some (getAllContacts lc db me)))))).
Proof.
  cbn [ContactsPage peopleOf]. rewrite cardsOf_listing, !map_map.
  cbn [personCard pc_key pc_href].
  pose proof (users_ids_NoDup lc db me) as Hnd.
  repeat split; [exact Hnd |].
  rewrite <- (map_map cu_id (String.append "/person/")).
  apply NoDup_map_NoDup_ForallPairs; [| exact Hnd].
  intros a b _ _ Heq. simpl in Heq. now injection Heq.
Qed.

(** X18. When the ids of the groups table are unique, the Groups column has
    one card for each listed group, and the cards' keys and their links
    [/groups/<id>] are pairwise distinct. *)
Theorem ContactsPage_group_cards
  (lc : jsstring -> jsstring -> Z) (db : Db) (me : Id) :
  NoDup (map g_id (groups db)) ->
  map gc_key
      (cardsOf (groupCardsOf (ContactsPage false
                                (Some (getAllContacts lc db me)))))
  = map cg_id (c_groups (getAllContacts lc db me))
  /\ NoDup (map gc_key
              (cardsOf (groupCardsOf (ContactsPage false
                                        (Some (getAllContacts lc db me))))))
  /\ NoDup (map gc_href
              (cardsOf (groupCardsOf (ContactsPage false
                                        (Some (getAllContacts lc db me)))))).
Proof.
  intros Hids. cbn [ContactsPage groupCardsOf].
  rewrite cardsOf_listing, !map_map. cbn [groupCard gc_key gc_href].
  assert (Hnd : NoDup (map cg_id (c_groups (getAllContacts lc db me)))).
  { eapply Permutation_NoDup.
    - apply Permutation_sym, Permutation_map, groups_Permutation.
    - unfold userGroups. rewrite map_map. simpl.
      now apply selected_group_ids_NoDup. }
  repeat split; [exact Hnd |].
  rewrite <- (map_map cg_id (String.append "/groups/")).
  apply NoDup_map_NoDup_ForallPairs; [| exact Hnd].
  intros a b _ _ Heq. simpl in Heq. now injection Heq.
Qed.

Lemma ContactsPage_group_cards_witness :
  NoDup (map g_id (groups Examples.dbGhost))
  /\ map gc_href
       (cardsOf (groupCardsOf
                   (ContactsPage false
                      (Some (getAllContacts codeUnitCompare Examples.dbGhost
                               "b")))))
     = ["/groups/g2"; "/groups/g1"]
  /\ NoDup (map gc_href
              (cardsOf (groupCardsOf
                          (ContactsPage false
                             (Some (getAllContacts codeUnitCompare
                                      Examples.dbGhost "b")))))).
Proof.
  assert (H : NoDup (map g_id (groups Examples.dbGhost))).
  { simpl. repeat constructor; simpl; intuition discriminate. }
  split; [exact H |]. split; [reflexivity |].
  exact (proj2 (proj2 (ContactsPage_group_cards codeUnitCompare
                         Examples.dbGhost "b" H))).
Defined.

(** X19. Rendered from a result of [getAllContacts], the People column
    shows the "no contacts yet" card exactly when every other participant of
    the viewer's personal expenses lacks a user document (in particular when
    there is no such expense). *)
Theorem ContactsPage_no_contacts_card
  (lc : jsstring -> jsstring -> Z) (db : Db) (me : Id) :
  peopleOf (ContactsPage false (Some (getAllContacts lc db me))) = EmptyCard
  <-> Forall (fun id => db_get db id = None) (contactIds db me).
Proof.
  cbn [ContactsPage peopleOf]. rewrite Forall_forall. split.
  - intros Hempty id Hin.
    destruct (db_get db id) as [u |] eqn:Hu; [| reflexivity].
    assert (Hc : In (toContactUser u) (c_users (getAllContacts lc db me))).
    { apply users_In. exists id. split; [assumption |].
      apply resolveContact_Some. eauto. }
    destruct (c_users (getAllContacts lc db me)); [destruct Hc | discriminate].
  - intros Hnone.
    destruct (c_users (getAllContacts lc db me)) as [| c cs] eqn:Hc;
      [reflexivity |].
    assert (Hin : In c (c_users (getAllContacts lc db me)))
      by (rewrite Hc; now left).
    apply users_In in Hin as (id & Hin & Hr).
    apply resolveContact_Some in Hr as (u & Hu & _).
    rewrite (Hnone id Hin) in Hu. discriminate.
Qed.

(** X20. The [?createGroup=true] effect settles in one run.  When the
    first [createGroup] parameter is ["true"] it opens the modal and leaves
    no parameter named [createGroup] in the query, whatever its value;
    otherwise it changes nothing.  In both cases every other parameter and
    the path are kept, the trigger is no longer in the query, and running
    the effect again changes nothing. *)
Theorem createGroupParamEffect_settles (st : PageState) :
  createGroupParamEffect (createGroupParamEffect st)
  = createGroupParamEffect st
  /\ URLSearchParams_get "createGroup"
       (searchParams (createGroupParamEffect st)) <> Some "true"
  /\ URLSearchParams_delete "createGroup"
       (searchParams (createGroupParamEffect st))
     = URLSearchParams_delete "createGroup" (searchParams st)
  /\ pathname (createGroupParamEffect st) = pathname st
  /\ (isCreateGroupModalOpen (createGroupParamEffect st) = true
      <-> isCreateGroupModalOpen st = true
          \/ URLSearchParams_get "createGroup" (searchParams st)
             = Some "true")
  /\ (URLSearchParams_get "createGroup" (searchParams st) = Some "true" ->
      Forall (fun p => fst p <> "createGroup")
             (searchParams (createGroupParamEffect st)))
  /\ (URLSearchParams_get "createGroup" (searchParams st) <> Some "true" ->
      createGroupParamEffect st = st).
Proof.
  destruct (URLSearchParams_get "createGroup" (searchParams st)) as [v |]
    eqn:Hget.
  - destruct (String.eqb v "true") eqn:Hv.
    + assert (E : createGroupParamEffect st
                  = mkPageState true (pathname st)
                      (URLSearchParams_delete "createGroup" (searchParams st))).
      { unfold createGroupParamEffect. now rewrite Hget, Hv. }
      apply String.eqb_eq in Hv. subst v. rewrite E.
      split.
      { unfold createGroupParamEffect. cbn [searchParams].
        now rewrite get_after_delete. }
      cbn [searchParams pathname isCreateGroupModalOpen].
      rewrite get_after_delete.
      split; [discriminate |]. split; [apply filter_idem |].
      split; [reflexivity |]. split; [split; auto |].
      split; [| intros Hn; now destruct Hn].
      intros _. apply Forall_forall. intros p Hp.
      apply filter_In in Hp as [_ Hp]. apply negb_true_iff in Hp.
      now apply String.eqb_neq.
    + assert (E : createGroupParamEffect st = st).
      { unfold createGroupParamEffect. now rewrite Hget, Hv. }
      apply String.eqb_neq in Hv. rewrite !E, Hget.
      split; [reflexivity |]. split; [congruence |].
      split; [reflexivity |]. split; [reflexivity |].
      split; [split; [auto | intros [H | H]; [assumption | congruence]] |].
      split; [congruence | reflexivity].
  - assert (E : createGroupParamEffect st = st).
    { unfold createGroupParamEffect. now rewrite Hget. }
    rewrite !E, Hget.
    split; [reflexivity |]. split; [discriminate |].
    split; [reflexivity |]. split; [reflexivity |].
    split; [split; [auto | intros [H | H]; [assumption | discriminate]] |].
    split; [discriminate | reflexivity].
Qed.

Lemma createGroupParamEffect_settles_witness :
  URLSearchParams_get "createGroup" (searchParams MoreExamples.deepLink)
  = Some "true"
  /\ In ("createGroup", "1") (searchParams MoreExamples.deepLink)
  /\ searchParams (createGroupParamEffect MoreExamples.deepLink)
     = [("tab", "groups")]
  /\ Forall (fun p => fst p <> "createGroup")
            (searchParams (createGroupParamEffect MoreExamples.deepLink)).
Proof.
  split; [reflexivity |]. split; [simpl; auto |]. split; [reflexivity |].
  exact (proj1 (proj2 (proj2 (proj2 (proj2 (proj2
           (createGroupParamEffect_settles MoreExamples.deepLink))))))
           eq_refl).
Defined.

Example createGroupParamEffect_deepLink :
  createGroupParamEffect MoreExamples.deepLink
  = mkPageState true "/contacts" [("tab", "groups")].
Proof. reflexivity. Qed.
